(** * generate_assets.py: placeholder icons, screenshots and promo tile

    A shallow embedding of [scripts/generate_assets.py].  The script is a
    straight-line driver over three libraries that are not part of the
    repository: [pathlib] (paths, [mkdir]), Pillow ([Image], [ImageDraw],
    [ImageFont]) and the operating system's file tree.  They are modelled
    here as follows.

    - The file tree is a finite map from paths to nodes (directory or image
      file; a file that an interrupted [save] has emptied holds the bitmap
      [emptied], which is no image).  Permissions, symbolic links, [..]
      resolution, the limits of the operating system on names and the
      exhaustion of memory or disk are outside the model.
    - A bitmap is its mode, its size, its background colour and the list of
      drawing calls applied to it, in order.  Pillow's rasteriser is a fixed
      function of exactly these data, so two bitmaps with equal records have
      equal pixels.
    - What depends on the machine (which font files load, where the script
      lives) and on the Pillow build (text metrics, which glyphs a font can
      draw, which file extensions have an encoder and what the encoders
      other than PNG refuse) is a parameter, the classes [Host] and
      [Pillow].
    - Python exceptions and the effects on the file tree are threaded by a
      small state-and-error monad [M] that also records the observable
      library calls (font loads, file writes, prints). *)

From Stdlib Require Import ZArith Lia Ascii.
From Stdlib Require Import Floats.PrimFloat Floats.SpecFloat Floats.FloatOps.
From Stdlib Require Uint63.
From stdpp Require Import gmap strings list pretty.

Set Warnings "-inexact-float".
Local Open Scope Z_scope.

(** ** Python numbers *)

(** [float(z)]: exact below [2^53], correctly rounded below [2^63]; every
    integer converted by the script is a pixel count. *)
Definition float_of_int (z : Z) : float :=
  if z <? 0 then PrimFloat.opp (PrimFloat.of_uint63 (Uint63.of_Z (- z)))
  else PrimFloat.of_uint63 (Uint63.of_Z z).

(** A coordinate handed to Pillow is a Python [int] or [float]. *)
Inductive num :=
  | Int (z : Z)
  | Float (f : float).

(** ** Exceptions *)

(** The exception classes the modelled library calls raise.  Each of them
    derives from [Exception]; the file-tree errors derive from [OSError],
    [UnicodeEncodeError] from [ValueError]. *)
Inductive exn :=
  | ValueError
  | OverflowError
  | UnicodeEncodeError
  | OSError
  | FileNotFoundError
  | FileExistsError
  | NotADirectoryError
  | IsADirectoryError.

#[global] Instance exn_eq_dec : EqDecision exn.
Proof. solve_decision. Defined.

(** [except Exception] catches every exception of [exn]. *)
Definition Exception (e : exn) : bool :=
  match e with
  | ValueError | OverflowError | UnicodeEncodeError => true
  | OSError | FileNotFoundError | FileExistsError
  | NotADirectoryError | IsADirectoryError => true
  end.

(** [int(f)]: truncation towards zero. *)
Definition int_of_float (f : float) : exn + Z :=
  match Prim2SF f with
  | S754_zero _ => inr 0
  | S754_finite s m e =>
      let a := if 0 <=? e then Z.shiftl (Z.pos m) e else Z.shiftr (Z.pos m) (- e) in
      inr (if s then - a else a)
  | S754_infinity _ => inl OverflowError
  | S754_nan => inl ValueError
  end.

(** [range(start, stop, step)] for a positive step. *)
Definition range (start stop step : Z) : list Z :=
  map (fun k => start + step * Z.of_nat k)
      (seq 0 (Z.to_nat ((stop - start + step - 1) / step))).

(** ** Paths *)

(** A path is the list of its components, the last component first, so that
    the parent of [c :: p] is [p]; [[]] is the root of the file tree. *)
Abbreviation Path := (list string).

Definition push_component (cur : string) (acc : Path) : Path :=
  if bool_decide (cur = "" ∨ cur = ".") then acc else cur :: acc.

(** Splits [s] at every slash and stacks its components on [acc]; empty
    components and [.] are dropped, as [pathlib] does. *)
Fixpoint components (s cur : string) (acc : Path) : Path :=
  match s with
  | EmptyString => push_component cur acc
  | String c s' =>
      if bool_decide (c = "/"%char) then components s' "" (push_component cur acc)
      else components s' (cur +:+ String c EmptyString) acc
  end.

(** [p / s]: an absolute [s] replaces [p]. *)
Definition truediv (p : Path) (s : string) : Path :=
  match s with
  | String "/"%char _ => components s "" []
  | _ => components s "" p
  end.

Infix "</>" := truediv (at level 40, left associativity).

(** ** Fonts, colours, bitmaps *)

(** A font handle: the file it was loaded from and its size, or the
    built-in font with the size asked of [load_default], if any. *)
Inductive Font :=
  | FreeTypeFont (path : string) (size : Z)
  | DefaultFont (size : option Z).

Inductive Color :=
  | RGB (r g b : Z)
  | RGBA (r g b a : Z).

(** The calls of [ImageDraw.Draw] the script makes. *)
Inductive DrawOp :=
  | Rectangle (x0 y0 x1 y1 : Z) (fill : Color)
  | RoundedRectangle (x0 y0 x1 y1 : Z) (radius : Z) (fill : Color)
      (outline : option Color) (width : Z)
  | Ellipse (x0 y0 x1 y1 : Z) (fill : Color)
  | Text (x y : num) (text : string) (font : Font) (fill : Color).

Record Image := mkImage {
  im_mode : string;
  im_size : Z * Z;
  im_color : Color;
  im_ops : list DrawOp
}.

Definition im_width (img : Image) : Z := fst (im_size img).
Definition im_height (img : Image) : Z := snd (im_size img).

(** What is left in a file that [save] opened for writing and then could
    not encode: no bytes, so no image; its mode is no mode of Pillow. *)
Definition emptied : Image := mkImage "" (0, 0) (RGB 0 0 0) [].

(** The file name ends in [.png]. *)
Definition suffix_png (name : string) : bool :=
  bool_decide (String.substring (String.length name - 4) 4 name = ".png").

(** ** The file tree *)

Inductive Node :=
  | Dir
  | File (content : Image).

Abbreviation FS := (gmap Path Node).

(** The root always exists and is a directory. *)
Definition node (fs : FS) (p : Path) : option Node :=
  match p with
  | [] => Some Dir
  | _ => fs !! p
  end.

Definition is_dir (fs : FS) (p : Path) : bool :=
  match node fs p with
  | Some Dir => true
  | _ => false
  end.

(** ** The monad of the script *)

Inductive Event :=
  | EvTruetype (path : string) (size : Z)
  | EvLoadDefault
  | EvSave (p : Path) (img : Image)
  | EvPrint (s : string).

Record Run (A : Type) := mkRun {
  events : list Event;
  final : FS;
  result : exn + A
}.
Arguments mkRun {A} _ _ _.
Arguments events {A} _.
Arguments final {A} _.
Arguments result {A} _.

Definition M (A : Type) : Type := FS -> Run A.

Definition ret {A} (a : A) : M A := fun fs => mkRun [] fs (inr a).

Definition raise {A} (e : exn) : M A := fun fs => mkRun [] fs (inl e).

Definition bind {A B} (m : M A) (k : A -> M B) : M B := fun fs =>
  let r := m fs in
  match result r with
  | inl e => mkRun (events r) (final r) (inl e)
  | inr a => let r' := k a (final r) in
             mkRun (events r ++ events r') (final r') (result r')
  end.

(** [try: body / except: handler e], the handler re-raising what it does
    not catch. *)
Definition catch {A} (body : M A) (handler : exn -> M A) : M A := fun fs =>
  let r := body fs in
  match result r with
  | inl e => let r' := handler e (final r) in
             mkRun (events r ++ events r') (final r') (result r')
  | inr _ => r
  end.

Definition try_except {A} (body : M A) (cls : exn -> bool) (handler : M A) : M A :=
  catch body (fun e => if cls e then handler else raise e).

Definition emit (ev : Event) : M unit := fun fs => mkRun [ev] fs (inr tt).

Definition lift {A} (r : exn + A) : M A :=
  match r with
  | inl e => raise e
  | inr a => ret a
  end.

Notation "x <- m ;; k" := (bind m (fun x => k))
  (at level 100, m at next level, right associativity).
Notation "m ;; k" := (bind m (fun _ => k))
  (at level 100, right associativity).

(** [for x in xs: img = body(img, x)] *)
Fixpoint for_each {A S} (xs : list A) (body : S -> A -> M S) (s : S) : M S :=
  match xs with
  | [] => ret s
  | x :: xs' => s' <- body s x ;; for_each xs' body s'
  end.

(** ** The environment *)

(** The Pillow build: [text_extent font text] is the bounding box
    (left, top, right, bottom), in pixels, of [text] drawn at the origin;
    [bbox_error font text] is the exception [textbbox] raises for them
    (releases before 10.1 measure TrueType fonts only) and
    [text_error font text] the exception [text] raises (the legacy bitmap
    font on a character outside Latin-1), [None] when there is none;
    [registered_extension name] tells whether the extension of the file
    name [name] has an encoder; [encode_error name img] is the exception
    that this encoder raises on the bitmap [img] once the file is open
    ([OSError] for a mode the format cannot hold, as RGBA in a JPEG file;
    an error for an empty bitmap), [None] when it encodes.  The PNG
    encoder is not part of the parameter, see [encoder_error]. *)
Class Pillow := {
  text_extent : Font -> string -> Z * Z * Z * Z;
  bbox_error : Font -> string -> option exn;
  text_error : Font -> string -> option exn;
  registered_extension : string -> bool;
  encode_error : string -> Image -> option exn
}.

(** The machine: [ROOT] is the directory above the script's own,
    [font_error path size] the exception [ImageFont.truetype] raises for
    this file and size ([OSError] for a missing or unreadable file,
    [ValueError] for a size that is not positive), [None] when it loads. *)
Class Host := {
  ROOT : Path;
  font_error : string -> Z -> option exn
}.

Section Script.

Context `{Pillow} `{Host}.

(** *** pathlib and Pillow calls *)

(** [os.mkdir(p)] *)
Definition os_mkdir (p : Path) : M unit := fun fs =>
  match p with
  | [] => raise FileExistsError fs
  | _ :: parent =>
      match node fs parent with
      | None => raise FileNotFoundError fs
      | Some (File _) => raise NotADirectoryError fs
      | Some Dir =>
          match fs !! p with
          | Some _ => raise FileExistsError fs
          | None => mkRun [] (<[p := Dir]> fs) (inr tt)
          end
      end
  end.

(** The [except OSError] clause of [Path.mkdir] with [exist_ok=True]. *)
Definition unless_is_dir (p : Path) (e : exn) : M unit := fun fs =>
  if is_dir fs p then ret tt fs else raise e fs.

(** [p.mkdir(parents=False, exist_ok=True)] *)
Definition mkdir_exist_ok (p : Path) : M unit :=
  catch (os_mkdir p) (fun e =>
    match e with
    | FileNotFoundError => raise e
    | _ => unless_is_dir p e
    end).

(** [p.mkdir(parents=True, exist_ok=True)] *)
Fixpoint mkdir (p : Path) : M unit :=
  catch (os_mkdir p) (fun e =>
    match e with
    | FileNotFoundError =>
        match p with
        | [] => raise e
        | _ :: parent => mkdir parent ;; mkdir_exist_ok p
        end
    | _ => unless_is_dir p e
    end).

(** [ImageFont.truetype(path, size)] *)
Definition truetype (path : string) (size : Z) : M Font :=
  emit (EvTruetype path size) ;;
  match font_error path size with
  | Some e => raise e
  | None => ret (FreeTypeFont path size)
  end.

(** [ImageFont.load_default(size)]: the font is part of the library, and
    its loading is not documented to fail. *)
Definition load_default (size : option Z) : M Font :=
  emit EvLoadDefault ;; ret (DefaultFont size).

(** The largest C [int]: Pillow hands the sides of a bitmap to its C core
    as [int]s. *)
Definition INT_MAX : Z := 2147483647.

(** [Image.new(mode, size, color)]: a negative side is refused by the
    Python layer, a side that is no C [int] by the call into the core. *)
Definition Image_new (mode : string) (size : Z * Z) (color : Color) : M Image :=
  if (fst size <? 0) || (snd size <? 0) then raise ValueError
  else if (INT_MAX <? fst size) || (INT_MAX <? snd size) then raise OverflowError
  else ret (mkImage mode size color []).

Definition draw (op : DrawOp) (img : Image) : Image :=
  mkImage (im_mode img) (im_size img) (im_color img) (im_ops img ++ [op]).

(** Pillow refuses a box whose second corner lies before its first. *)
Definition check_box (x0 y0 x1 y1 : Z) : M unit :=
  if (x1 <? x0) || (y1 <? y0) then raise ValueError else ret tt.

Definition rectangle (img : Image) (x0 y0 x1 y1 : Z) (fill : Color) : M Image :=
  check_box x0 y0 x1 y1 ;; ret (draw (Rectangle x0 y0 x1 y1 fill) img).

Definition rounded_rectangle (img : Image) (x0 y0 x1 y1 : Z) (radius : Z)
    (fill : Color) (outline : option Color) (width : Z) : M Image :=
  check_box x0 y0 x1 y1 ;;
  ret (draw (RoundedRectangle x0 y0 x1 y1 radius fill outline width) img).

Definition ellipse (img : Image) (x0 y0 x1 y1 : Z) (fill : Color) : M Image :=
  check_box x0 y0 x1 y1 ;; ret (draw (Ellipse x0 y0 x1 y1 fill) img).

(** [draw.textbbox(xy, text, font=font)] *)
Definition textbbox (xy : Z * Z) (text : string) (font : Font) : M (Z * Z * Z * Z) :=
  match bbox_error font text with
  | Some e => raise e
  | None =>
      let '(l, t, r, b) := text_extent font text in
      ret (l + fst xy, t + snd xy, r + fst xy, b + snd xy)
  end.

(** [draw.text(xy, text, font=font, fill=fill)] *)
Definition text (img : Image) (xy : num * num) (s : string) (font : Font)
    (fill : Color) : M Image :=
  match text_error font s with
  | Some e => raise e
  | None => ret (draw (Text (fst xy) (snd xy) s font fill) img)
  end.

(** [p] or a directory above it is a regular file. *)
Fixpoint below_a_file (fs : FS) (p : Path) : bool :=
  match p with
  | [] => false
  | _ :: parent =>
      match fs !! p with
      | Some (File _) => true
      | _ => below_a_file fs parent
      end
  end.

(** The exception of the encoder for [name] on [img]: a bitmap of mode RGB
    or RGBA that is not empty is written as PNG without error; every other
    case is the Pillow build's. *)
Definition encoder_error (name : string) (img : Image) : option exn :=
  if suffix_png name
     && bool_decide (im_mode img = "RGB" ∨ im_mode img = "RGBA")
     && (0 <? im_width img) && (0 <? im_height img)
  then None
  else encode_error name img.

(** [img.save(out)]: the encoder is chosen from the file name (the root has
    none); the file is opened for writing, which fails in a directory that
    is missing ([NotADirectoryError] when a regular file is in the way,
    [FileNotFoundError] otherwise) and empties a file that is there; then
    the encoder runs.  When the encoder raises, [save] removes the file if
    it has created it, and leaves a file that was there emptied. *)
Definition save (img : Image) (out : Path) : M unit := fun fs =>
  match out with
  | [] => raise ValueError fs
  | name :: parent =>
      if negb (registered_extension name) then raise ValueError fs
      else match node fs parent with
           | None =>
               raise (if below_a_file fs parent then NotADirectoryError
                      else FileNotFoundError) fs
           | Some (File _) => raise NotADirectoryError fs
           | Some Dir =>
               match fs !! out with
               | Some Dir => raise IsADirectoryError fs
               | old =>
                   match encoder_error name img with
                   | None => mkRun [EvSave out img] (<[out := File img]> fs) (inr tt)
                   | Some e =>
                       mkRun []
                         (match old with
                          | Some _ => <[out := File emptied]> fs
                          | None => fs
                          end)
                         (inl e)
                   end
               end
           end
  end.

Definition print (s : string) : M unit := emit (EvPrint s).

(** *** The script *)

Definition ASSETS_DIR : Path := ROOT </> "myayai-extension" </> "assets" </> "icons".
Definition STORE_DIR : Path := ROOT </> "store-assets".
Definition SCREENSHOTS_DIR : Path := STORE_DIR </> "screenshots".

Definition ensure_dirs : M unit :=
  for_each [ASSETS_DIR; SCREENSHOTS_DIR] (fun _ p => mkdir p) tt.

Definition get_font (size : Z) : M Font :=
  try_except (truetype "/System/Library/Fonts/SFNS.ttf" size) Exception
    (try_except
       (truetype "/System/Library/Fonts/Supplemental/Arial Unicode.ttf" size)
       Exception
       (load_default None)).

Definition create_icon (size : Z) (filename : string) : M Path :=
  img <- Image_new "RGBA" (size, size) (RGBA 19 27 38 255) ;;
  let radius := Z.max 6 (size / 8) in
  img <- rounded_rectangle img 0 0 (size - 1) (size - 1) radius
           (RGBA 25 32 45 255) None 1 ;;
  let r := size / 3 in
  let cx := size / 2 in
  let cy := size / 2 in
  img <- ellipse img (cx - r) (cy - r) (cx + r) (cy + r) (RGBA 0 145 255 230) ;;
  font <- get_font (size / 3) ;;
  let text_ := "A" in
  bbox <- textbbox (0, 0) text_ font ;;
  let '(_, _, tw, th) := bbox in
  img <- text img
           (Float (float_of_int cx - float_of_int tw / 2)%float,
            Float (float_of_int cy - float_of_int th / 2)%float)
           text_ font (RGBA 255 255 255 255) ;;
  let out := ASSETS_DIR </> filename in
  save img out ;;
  ret out.

Definition create_promo (width height : Z) (filename title subtitle : string) : M Path :=
  img <- Image_new "RGB" (width, height) (RGB 17 24 39) ;;
  img <- for_each (range 0 height 6) (fun img i =>
           let shade := 24 + i mod 48 in
           rectangle img 0 i width (i + 3) (RGB shade (shade + 2) (shade + 5))) img ;;
  title_font <- get_font (Z.min (width / 12) 64) ;;
  subtitle_font <- get_font (Z.min (width / 24) 32) ;;
  bbox <- textbbox (0, 0) title title_font ;;
  let '(_, _, tw, th) := bbox in
  img <- text img
           (Float (float_of_int (width - tw) / 2)%float,
            Float (float_of_int height * 0.28 - float_of_int th / 2)%float)
           title title_font (RGB 255 255 255) ;;
  bbox <- textbbox (0, 0) subtitle subtitle_font ;;
  let '(_, _, sw, sh) := bbox in
  img <- text img
           (Float (float_of_int (width - sw) / 2)%float,
            Float (float_of_int height * 0.28 + float_of_int th / 2 + 12)%float)
           subtitle subtitle_font (RGB 180 210 255) ;;
  let pill := "One‑click prompt optimization" in
  pill_font <- get_font (Z.min (width / 32) 22) ;;
  bbox <- textbbox (0, 0) pill pill_font ;;
  let '(_, _, pw, ph) := bbox in
  let pad := 16 in
  let x0 := (width - pw) / 2 - pad in
  y0 <- lift (int_of_float (float_of_int height * 0.70 - float_of_int ph / 2 - 10)%float) ;;
  let x1 := (width + pw) / 2 + pad in
  y1 <- lift (int_of_float (float_of_int height * 0.70 + float_of_int ph / 2 + 10)%float) ;;
  img <- rounded_rectangle img x0 y0 x1 y1 18 (RGB 0 145 255) None 1 ;;
  img <- text img
           (Float (float_of_int (width - pw) / 2)%float,
            Float (float_of_int height * 0.70 - float_of_int ph / 2)%float)
           pill pill_font (RGB 0 0 0) ;;
  let out := STORE_DIR </> filename in
  save img out ;;
  ret out.

Definition create_screenshot (idx : Z) (title subtitle : string) : M Path :=
  let width := 1280 in
  let height := 800 in
  img <- Image_new "RGB" (width, height) (RGB 14 19 30) ;;
  img <- rectangle img 0 0 width 96 (RGB 25 35 56) ;;
  title_font <- get_font 52 ;;
  subtitle_font <- get_font 28 ;;
  img <- text img (Int 48, Int 28) title title_font (RGB 255 255 255) ;;
  img <- text img (Int 48, Int (96 + 24)) subtitle subtitle_font (RGB 185 205 235) ;;
  let y := 180 in
  st <- for_each (range 0 3 1) (fun '(img, y) _ =>
          img <- rounded_rectangle img 48 y (width - 48) (y + 140) 16
                   (RGB 22 30 48) (Some (RGB 70 90 130)) 2 ;;
          ret (img, y + 160)) (img, y) ;;
  let '(img, y) := st in
  foot_font <- get_font 18 ;;
  img <- text img (Int 48, Int (height - 40))
           "Placeholder screenshot (auto‑generated)" foot_font (RGB 150 170 200) ;;
  let out := SCREENSHOTS_DIR </> ("screenshot-" +:+ pretty idx +:+ ".png") in
  save img out ;;
  ret out.

Definition main : M unit :=
  ensure_dirs ;;
  create_icon 16 "icon16.png" ;;
  create_icon 32 "icon32.png" ;;
  create_icon 48 "icon48.png" ;;
  create_icon 128 "icon128.png" ;;
  create_screenshot 1 "One‑click Optimization" "Upgrade prompts while preserving intent" ;;
  create_screenshot 2 "Dashboard & Insights" "Track improvements and time saved" ;;
  create_screenshot 3 "Works Across Platforms" "ChatGPT, Claude, Gemini, Perplexity, Copilot, Poe" ;;
  create_screenshot 4 "Achievements" "Build better prompting habits over time" ;;
  create_screenshot 5 "Before → After" "See improvements called out clearly" ;;
  create_promo 440 280 "promo-440x280.png" "MyAyAI" "AI Prompt Optimizer" ;;
  print "Generated icons, screenshots, and promo placeholders.".

End Script.

(** ** Observations on a run *)

(** The files a run wrote, in order, with the bitmap written. *)
Definition saves (evs : list Event) : list (Path * Image) :=
  omap (fun ev => match ev with EvSave p img => Some (p, img) | _ => None end) evs.

Definition saved_paths (evs : list Event) : list Path := (saves evs).*1.

Definition bitmaps (evs : list Event) : list Image := (saves evs).*2.

Definition is_file (fs : FS) (p : Path) : Prop := ∃ img, fs !! p = Some (File img).

(** [fs'] is [fs] with some missing directories created. *)
Definition only_new_dirs (fs fs' : FS) : Prop :=
  ∀ p, fs' !! p = fs !! p ∨ (fs !! p = None ∧ fs' !! p = Some Dir).

(** The file tree after the writes [ws], made in order. *)
Definition write_all (ws : list (Path * Image)) (fs : FS) : FS :=
  foldl (fun fs w => <[w.1 := File w.2]> fs) fs ws.

(** The directory that is to hold [p] is there, as a directory or not. *)
Definition has_parent (fs : FS) (p : Path) : Prop :=
  match p with
  | [] => True
  | _ :: parent => node fs parent ≠ None
  end.

(** What a successful [mkdir p] leaves: nothing written, some directories
    created, [p] among the directories. *)
Definition mkdir_done (p : Path) (fs : FS) (r : Run unit) : Prop :=
  events r = [] ∧ only_new_dirs fs (final r) ∧
  is_dir (final r) p = true ∧ has_parent (final r) p.

Definition same_kind (n n' : Node) : Prop :=
  match n, n' with
  | Dir, Dir => True
  | File _, File _ => True
  | _, _ => False
  end.

(** Every node of [fs] is still there in [fs'], a directory still a
    directory and a file still a file. *)
Definition grows (fs fs' : FS) : Prop :=
  ∀ p n, fs !! p = Some n → ∃ n', fs' !! p = Some n' ∧ same_kind n n'.

(** Partial correctness: when [m] returns normally from [fs], its value,
    its events and the file tree it leaves satisfy [Q]. *)
Definition wp {A} (m : M A) (Q : A → list Event → FS → Prop) (fs : FS) : Prop :=
  match result (m fs) with
  | inl _ => True
  | inr a => Q a (events (m fs)) (final (m fs))
  end.

(** A computation that returned normally returns normally again, with the
    same value and writing the same paths, from any file tree that has
    grown out of the one it left; and it only makes the tree grow. *)
Definition replayable {A} (m : M A) : Prop :=
  ∀ fs a, result (m fs) = inr a →
    grows fs (final (m fs)) ∧
    ∀ fs2, grows (final (m fs)) fs2 →
      result (m fs2) = inr a ∧
      saved_paths (events (m fs2)) = saved_paths (events (m fs)) ∧
      grows fs2 (final (m fs2)).

(** The bitmap of an icon of side [size] whose monogram is drawn at
    [(x, y)] in [font]. *)
Definition icon_bitmap (size : Z) (x y : num) (font : Font) : Image :=
  mkImage "RGBA" (size, size) (RGBA 19 27 38 255)
    [RoundedRectangle 0 0 (size - 1) (size - 1) (Z.max 6 (size / 8))
       (RGBA 25 32 45 255) None 1;
     Ellipse (size / 2 - size / 3) (size / 2 - size / 3)
       (size / 2 + size / 3) (size / 2 + size / 3) (RGBA 0 145 255 230);
     Text x y "A" font (RGBA 255 255 255 255)].

(** A computation that neither reads nor changes the file tree. *)
Definition pure {A} (m : M A) : Prop :=
  ∀ fs fs', final (m fs) = fs ∧ result (m fs) = result (m fs') ∧
            events (m fs) = events (m fs').

(** Two runs wrote the same bitmaps: when both returned, their values are
    related and the bitmaps they wrote are the same, in the same order;
    when one stopped on an exception, what it had written is the beginning
    of what the other wrote. *)
Definition agree_runs {A} (R : A → A → Prop) (r1 r2 : Run A) : Prop :=
  match result r1, result r2 with
  | inr a1, inr a2 => R a1 a2 ∧ bitmaps (events r1) = bitmaps (events r2)
  | inl _, inr _ => bitmaps (events r1) `prefix_of` bitmaps (events r2)
  | inr _, inl _ => bitmaps (events r2) `prefix_of` bitmaps (events r1)
  | inl _, inl _ => bitmaps (events r1) `prefix_of` bitmaps (events r2) ∨
                    bitmaps (events r2) `prefix_of` bitmaps (events r1)
  end.

Definition agree {A} (R : A → A → Prop) (m1 m2 : M A) : Prop :=
  ∀ fs1 fs2, agree_runs R (m1 fs1) (m2 fs2).

Section Manifest.

Context `{Host}.

Definition primary_font : string := "/System/Library/Fonts/SFNS.ttf".

Definition alternate_font : string :=
  "/System/Library/Fonts/Supplemental/Arial Unicode.ttf".

Definition icon_names : list string :=
  ["icon16.png"; "icon32.png"; "icon48.png"; "icon128.png"].

Definition screenshot_names : list string :=
  ["screenshot-1.png"; "screenshot-2.png"; "screenshot-3.png";
   "screenshot-4.png"; "screenshot-5.png"].

(** The paths [main] writes, in the order it writes them. *)
Definition output_paths : list Path :=
  ((fun name => name :: ASSETS_DIR) <$> icon_names)
  ++ ((fun name => name :: SCREENSHOTS_DIR) <$> screenshot_names)
  ++ ["promo-440x280.png" :: STORE_DIR].

(** The pixel sizes of the bitmaps [main] writes, in the same order. *)
Definition output_sizes : list (Z * Z) :=
  [(16, 16); (32, 32); (48, 48); (128, 128);
   (1280, 800); (1280, 800); (1280, 800); (1280, 800); (1280, 800);
   (440, 280)].

(** The literal reading of "exactly the four icon files exist in the icons
    directory": the files of that directory are these four and no other. *)
Definition icons_exactly (fs : FS) : Prop :=
  ∀ name, is_file fs (name :: ASSETS_DIR) ↔ name ∈ icon_names.

Definition screenshots_exist (fs : FS) : Prop :=
  ∀ name, name ∈ screenshot_names → is_file fs (name :: SCREENSHOTS_DIR).

End Manifest.

(** ** Concrete environments *)

(** A Pillow build with FreeType: every font lays out every text; a glyph
    is as tall as the font's size (11 pixels for the built-in font) and
    six tenths as wide; PNG is the only encoder, and it refuses what it
    cannot write, an empty bitmap, with [ValueError]. *)
Definition font_px (font : Font) : Z :=
  match font with
  | FreeTypeFont _ size => size
  | DefaultFont (Some size) => size
  | DefaultFont None => 11
  end.

Definition demo_pillow : Pillow := {|
  text_extent font s := (0, 0, 6 * font_px font * Z.of_nat (String.length s) / 10, font_px font);
  bbox_error _ _ := None;
  text_error _ _ := None;
  registered_extension := suffix_png;
  encode_error _ _ := Some ValueError
|}.

(** A Pillow build with a JPEG encoder beside PNG: JPEG holds no alpha
    channel, and neither encoder writes an empty bitmap. *)
Definition suffix_jpg (name : string) : bool :=
  bool_decide (String.substring (String.length name - 4) 4 name = ".jpg").

Definition jpeg_pillow : Pillow := {|
  text_extent font s := (0, 0, 6 * font_px font * Z.of_nat (String.length s) / 10, font_px font);
  bbox_error _ _ := None;
  text_error _ _ := None;
  registered_extension name := suffix_png name || suffix_jpg name;
  encode_error name img :=
    if (im_width img =? 0) || (im_height img =? 0) then Some ValueError
    else if bool_decide (im_mode img = "RGBA") then Some OSError
    else None
|}.

(** A machine without the two macOS fonts, the script living in
    [/repo/scripts]. *)
Definition linux_host : Host := {|
  ROOT := ["repo"];
  font_error _ _ := Some OSError
|}.

(** A build container: no fonts either, and another place for the
    checkout. *)
Definition container_host : Host := {|
  ROOT := ["builds"] </> "myayai";
  font_error _ _ := Some ValueError
|}.

(** A machine on which only the alternate font loads. *)
Definition arial_host : Host := {|
  ROOT := ["repo"];
  font_error path size :=
    if bool_decide (path = "/System/Library/Fonts/SFNS.ttf") then Some OSError
    else if size <=? 0 then Some ValueError else None
|}.

(** A macOS machine: both fonts load at every positive size. *)
Definition mac_host : Host := {|
  ROOT := ["Users"] </> "dev" </> "myayai";
  font_error _ size := if size <=? 0 then Some ValueError else None
|}.

(** A checkout in which the output directories exist and the icons
    directory already holds a hand-made logo. *)
Definition logo : Image := mkImage "RGBA" (64, 64) (RGBA 0 0 0 0) [].

Definition checkout : FS :=
  <[ ["logo.png"; "icons"; "assets"; "myayai-extension"; "repo"] := File logo ]>
    (final (@ensure_dirs linux_host ∅)).

(** ** Observations on runs that may raise *)

(** The messages a run printed, in order. *)
Definition prints (evs : list Event) : list string :=
  omap (fun ev => match ev with EvPrint s => Some s | _ => None end) evs.

(** What a run did to the file tree, path by path: it wrote the path, which
    was not a directory and now is a file; or it left the path as it was;
    or it created a directory where there was nothing. *)
Definition framed (fs : FS) (evs : list Event) (fs' : FS) : Prop :=
  ∀ p, (p ∈ saved_paths evs ∧ fs !! p ≠ Some Dir ∧ is_file fs' p) ∨
       fs' !! p = fs !! p ∨
       (fs !! p = None ∧ fs' !! p = Some Dir).

(** A computation that leaves the file tree as it is, writes no file and
    prints nothing, whether it returns or raises. *)
Definition quiet {A} (m : M A) : Prop :=
  ∀ fs, final (m fs) = fs ∧ saves (events (m fs)) = [] ∧ prints (events (m fs)) = [].

(** A computation that writes one file, as its last act: when it raises it
    has changed nothing and written nothing; when it returns a path, it has
    written one bitmap there, over nothing or over a file, in a directory
    that was there, and changed nothing else.  It never prints. *)
Definition writes_one (m : M Path) : Prop :=
  ∀ fs,
    prints (events (m fs)) = [] ∧
    match result (m fs) with
    | inl _ => final (m fs) = fs ∧ saves (events (m fs)) = []
    | inr out =>
        ∃ img, saves (events (m fs)) = [(out, img)] ∧
               final (m fs) = <[out := File img]> fs ∧
               fs !! out ≠ Some Dir ∧
               is_dir fs (tail out) = true
    end.

(** The most a computation writes and prints: on every file tree its effect
    is [framed]; when it returns it has written the paths [ps], in order,
    and printed [ms]; when it raises it has written the first few of [ps]
    and printed nothing. *)
Definition footprint {A} (m : M A) (ps : list Path) (ms : list string) : Prop :=
  ∀ fs,
    framed fs (events (m fs)) (final (m fs)) ∧
    match result (m fs) with
    | inl _ => saved_paths (events (m fs)) `prefix_of` ps ∧ prints (events (m fs)) = []
    | inr _ => saved_paths (events (m fs)) = ps ∧ prints (events (m fs)) = ms
    end.

(** The stripe that [create_promo] draws at row [i]. *)
Definition stripe (width i : Z) : DrawOp :=
  Rectangle 0 i width (i + 3)
    (RGB (24 + i mod 48) (24 + i mod 48 + 2) (24 + i mod 48 + 5)).

(** The file name of the screenshot numbered [idx]. *)
Definition screenshot_name (idx : Z) : string :=
  "screenshot-" +:+ pretty idx +:+ ".png".

(** The bitmap of a screenshot, given its two texts and the three fonts. *)
Definition screenshot_bitmap (title subtitle : string)
    (title_font subtitle_font foot_font : Font) : Image :=
  mkImage "RGB" (1280, 800) (RGB 14 19 30)
    [Rectangle 0 0 1280 96 (RGB 25 35 56);
     Text (Int 48) (Int 28) title title_font (RGB 255 255 255);
     Text (Int 48) (Int 120) subtitle subtitle_font (RGB 185 205 235);
     RoundedRectangle 48 180 1232 320 16 (RGB 22 30 48) (Some (RGB 70 90 130)) 2;
     RoundedRectangle 48 340 1232 480 16 (RGB 22 30 48) (Some (RGB 70 90 130)) 2;
     RoundedRectangle 48 500 1232 640 16 (RGB 22 30 48) (Some (RGB 70 90 130)) 2;
     Text (Int 48) (Int 760) "Placeholder screenshot (auto‑generated)" foot_font
       (RGB 150 170 200)].

(** A file name in which no slash occurs. *)
Fixpoint slash_free (s : string) : bool :=
  match s with
  | EmptyString => true
  | String c s' => negb (bool_decide (c = "/"%char)) && slash_free s'
  end.

(** A string without the NUL character. *)
Fixpoint nul_free (s : string) : bool :=
  match s with
  | EmptyString => true
  | String c s' => negb (bool_decide (c = "000"%char)) && nul_free s'
  end.

(** A name that a file can bear: no slash, no NUL character, at most 255
    bytes. *)
Definition file_name (s : string) : bool :=
  slash_free s && nul_free s && bool_decide (String.length s ≤ 255)%nat.

(** The tagline of the promo tile. *)
Definition pill_text : string := "One‑click prompt optimization".

(** The bitmap of a promo tile, given its texts, the three fonts, the
    widths and heights of the title ([tw], [th]), the subtitle ([sw]) and
    the tagline ([pw], [ph]), and the rows [y0], [y1] of the tagline's
    box. *)
Definition promo_bitmap (width height : Z) (title subtitle : string)
    (title_font subtitle_font pill_font : Font) (tw th sw pw ph y0 y1 : Z) : Image :=
  mkImage "RGB" (width, height) (RGB 17 24 39)
    ((stripe width <$> range 0 height 6) ++
     [Text (Float (float_of_int (width - tw) / 2)%float)
        (Float (float_of_int height * 0.28 - float_of_int th / 2)%float)
        title title_font (RGB 255 255 255);
      Text (Float (float_of_int (width - sw) / 2)%float)
        (Float (float_of_int height * 0.28 + float_of_int th / 2 + 12)%float)
        subtitle subtitle_font (RGB 180 210 255);
      RoundedRectangle ((width - pw) / 2 - 16) y0 ((width + pw) / 2 + 16) y1 18
        (RGB 0 145 255) None 1;
      Text (Float (float_of_int (width - pw) / 2)%float)
        (Float (float_of_int height * 0.70 - float_of_int ph / 2)%float)
        pill_text pill_font (RGB 0 0 0)]).

(** What is seen of a run from outside: what it returned or raised, the
    file tree it left, the files it wrote and the messages it printed. *)
Definition outcome {A} (r : Run A) : (exn + A) * FS * list (Path * Image) * list string :=
  (result r, final r, saves (events r), prints (events r)).

(** A file tree in which every entry lies in a directory. *)
Definition well_formed (fs : FS) : Prop :=
  ∀ c parent, fs !! (c :: parent) ≠ None → is_dir fs parent = true.

(** A computation that keeps [P] of the file tree, whether it returns or
    raises. *)
Definition keeps (P : FS → Prop) {A} (m : M A) : Prop :=
  ∀ fs, P fs → P (final (m fs)).

(** The two outcomes of a computation: when it returns, its value, the
    files it wrote, the messages it printed and the file tree it leaves
    satisfy [Q]; when it raises, the exception and the same observations
    satisfy [E]. *)
Definition wpe {A} (m : M A)
    (Q : A → list (Path * Image) → list string → FS → Prop)
    (E : exn → list (Path * Image) → list string → FS → Prop) (fs : FS) : Prop :=
  match result (m fs) with
  | inr a => Q a (saves (events (m fs))) (prints (events (m fs))) (final (m fs))
  | inl e => E e (saves (events (m fs))) (prints (events (m fs))) (final (m fs))
  end.

(** The message [main] prints when it is done. *)
Definition done_message : string :=
  "Generated icons, screenshots, and promo placeholders.".

(** * Properties *)

(** ** The model at work *)

Example truediv_absolute : ["repo"] </> "/tmp//x/./y.png" = ["y.png"; "x"; "tmp"].
Proof. reflexivity. Qed.

Example ASSETS_DIR_on_mac :
  @ASSETS_DIR mac_host = ["icons"; "assets"; "myayai-extension"; "myayai"; "dev"; "Users"].
Proof. reflexivity. Qed.

Example get_font_on_mac :
  @get_font mac_host 12 ∅ =
    mkRun [EvTruetype primary_font 12] ∅ (inr (FreeTypeFont primary_font 12)).
Proof. reflexivity. Qed.

Example get_font_zero_on_mac :
  result (@get_font mac_host 0 ∅) = inr (DefaultFont None).
Proof. reflexivity. Qed.

Example icon16_on_linux :
  bitmaps (events (@create_icon demo_pillow linux_host 16 "icon16.png" checkout)) =
    [icon_bitmap 16 (Float 5) (Float 2.5) (DefaultFont None)].
Proof. vm_compute. reflexivity. Qed.

Example create_icon_without_directory :
  result (@create_icon demo_pillow linux_host 16 "icon16.png" ∅) = inl FileNotFoundError.
Proof. vm_compute. reflexivity. Qed.

Example create_icon_of_size_zero :
  result (@create_icon demo_pillow linux_host 0 "icon0.png" checkout) = inl ValueError.
Proof. vm_compute. reflexivity. Qed.

Example promo_pill_box :
  ∃ img, final (@main demo_pillow linux_host ∅) !! ["promo-440x280.png"; "store-assets"; "repo"]
           = Some (File img) ∧
         im_ops img !! 49%nat =
           Some (RoundedRectangle 102 180 338 211 18 (RGB 0 145 255) None 1).
Proof. eexists. split; vm_compute; reflexivity. Qed.

Example create_icon_too_large :
  result (@create_icon demo_pillow linux_host (2 ^ 31) "big.png" checkout)
    = inl OverflowError.
Proof. vm_compute. reflexivity. Qed.

Example create_icon_as_jpeg :
  let target := ["icon16.jpg"; "icons"; "assets"; "myayai-extension"; "repo"] in
  let r := @create_icon jpeg_pillow linux_host 16 "icon16.jpg"
             (<[target := File logo]> checkout) in
  result r = inl OSError ∧ final r !! target = Some (File emptied) ∧ saves (events r) = [].
Proof. vm_compute. done. Qed.

Example create_icon_as_jpeg_the_first_time :
  let target := ["icon16.jpg"; "icons"; "assets"; "myayai-extension"; "repo"] in
  let r := @create_icon jpeg_pillow linux_host 16 "icon16.jpg" checkout in
  result r = inl OSError ∧ final r !! target = None.
Proof. vm_compute. done. Qed.

Example create_promo_of_height_zero :
  let target := ["promo.png"; "store-assets"; "repo"] in
  let r := @create_promo demo_pillow linux_host 440 0 "promo.png" "MyAyAI"
             "AI Prompt Optimizer" (<[target := File logo]> checkout) in
  result r = inl ValueError ∧ final r !! target = Some (File emptied).
Proof. vm_compute. done. Qed.

Example create_screenshot_below_a_file :
  result (@create_screenshot demo_pillow linux_host 1 "Title" "Subtitle"
            {[ ["store-assets"; "repo"] := File logo ]})
    = inl NotADirectoryError.
Proof. vm_compute. reflexivity. Qed.

Example mkdir_over_a_file :
  result (@ensure_dirs linux_host {[ ["store-assets"; "repo"] := File logo ]})
    = inl NotADirectoryError.
Proof. vm_compute. reflexivity. Qed.

(** ** The monad *)

Lemma saves_app evs evs' : saves (evs ++ evs') = saves evs ++ saves evs'.
Proof. apply omap_app. Qed.

Lemma wp_ret {A} (a : A) Q fs : Q a [] fs → wp (ret a) Q fs.
Proof. done. Qed.

Lemma wp_bind {A B} (m : M A) (k : A → M B) Q fs :
  wp m (fun a ev fs' => wp (k a) (fun b ev' fs'' => Q b (ev ++ ev') fs'') fs') fs →
  wp (bind m k) Q fs.
Proof.
  unfold wp, bind. cbv zeta.
  destruct (m fs) as [ev1 fs1 [e|a]]; simpl; [done|].
  destruct (k a fs1) as [ev2 fs2 [e|b]]; done.
Qed.

Lemma wp_mono {A} (m : M A) (Q Q' : A → list Event → FS → Prop) fs :
  wp m Q fs → (∀ a ev fs', Q a ev fs' → Q' a ev fs') → wp m Q' fs.
Proof. unfold wp. destruct (result (m fs)); [done|]. intros HQ HQ'. by apply HQ'. Qed.

Lemma wp_lift {A} (r : exn + A) Q fs :
  (∀ a, r = inr a → Q a [] fs) → wp (lift r) Q fs.
Proof. destruct r; [done|]. intros HQ. by apply HQ. Qed.

Lemma wp_result {A} (m : M A) Q fs a :
  wp m Q fs → result (m fs) = inr a → Q a (events (m fs)) (final (m fs)).
Proof. unfold wp. intros HQ Hr. by rewrite Hr in HQ. Qed.

Section Rules.

Context `{Pillow} `{Host}.

Lemma wp_Image_new mode size color Q fs :
  (0 ≤ fst size → 0 ≤ snd size → Q (mkImage mode size color []) [] fs) →
  wp (Image_new mode size color) Q fs.
Proof.
  intros HQ. unfold wp, Image_new.
  destruct (fst size <? 0) eqn:Hw; [done|].
  destruct (snd size <? 0) eqn:Hh; [done|]. simpl.
  destruct ((INT_MAX <? fst size) || (INT_MAX <? snd size)); [done|].
  simpl. apply HQ; lia.
Qed.

Lemma wp_check_box x0 y0 x1 y1 Q fs :
  (x0 ≤ x1 → y0 ≤ y1 → Q tt [] fs) → wp (check_box x0 y0 x1 y1) Q fs.
Proof.
  intros HQ. unfold wp, check_box.
  destruct (x1 <? x0) eqn:Hx; [done|].
  destruct (y1 <? y0) eqn:Hy; [done|]. simpl. apply HQ; lia.
Qed.

Lemma wp_rectangle img x0 y0 x1 y1 fill Q fs :
  (x0 ≤ x1 → y0 ≤ y1 → Q (draw (Rectangle x0 y0 x1 y1 fill) img) [] fs) →
  wp (rectangle img x0 y0 x1 y1 fill) Q fs.
Proof.
  intros HQ. apply wp_bind, wp_check_box. intros. apply wp_ret. by apply HQ.
Qed.

Lemma wp_rounded_rectangle img x0 y0 x1 y1 radius fill outline width Q fs :
  (x0 ≤ x1 → y0 ≤ y1 →
   Q (draw (RoundedRectangle x0 y0 x1 y1 radius fill outline width) img) [] fs) →
  wp (rounded_rectangle img x0 y0 x1 y1 radius fill outline width) Q fs.
Proof.
  intros HQ. apply wp_bind, wp_check_box. intros. apply wp_ret. by apply HQ.
Qed.

Lemma wp_ellipse img x0 y0 x1 y1 fill Q fs :
  (x0 ≤ x1 → y0 ≤ y1 → Q (draw (Ellipse x0 y0 x1 y1 fill) img) [] fs) →
  wp (ellipse img x0 y0 x1 y1 fill) Q fs.
Proof.
  intros HQ. apply wp_bind, wp_check_box. intros. apply wp_ret. by apply HQ.
Qed.

Lemma wp_textbbox xy s font Q fs :
  (∀ l t r b, bbox_error font s = None → text_extent font s = (l, t, r, b) →
     Q (l + fst xy, t + snd xy, r + fst xy, b + snd xy) [] fs) →
  wp (textbbox xy s font) Q fs.
Proof.
  intros HQ. unfold wp, textbbox.
  destruct (bbox_error font s) eqn:He; [done|].
  destruct (text_extent font s) as [[[l t] r] b] eqn:Hbox. simpl. by apply HQ.
Qed.

Lemma wp_text img xy s font fill Q fs :
  (text_error font s = None → Q (draw (Text (fst xy) (snd xy) s font fill) img) [] fs) →
  wp (text img xy s font fill) Q fs.
Proof.
  intros HQ. unfold wp, text.
  destruct (text_error font s) eqn:He; [done|]. simpl. by apply HQ.
Qed.

Lemma wp_save img out Q fs :
  (∀ name parent, out = name :: parent → registered_extension name = true →
     node fs parent = Some Dir → fs !! out ≠ Some Dir →
     encoder_error name img = None →
     Q tt [EvSave out img] (<[out := File img]> fs)) →
  wp (save img out) Q fs.
Proof.
  intros HQ. unfold wp, save. destruct out as [|name parent]; [done|].
  destruct (registered_extension name) eqn:Hext; [|done]. simpl.
  destruct (node fs parent) as [[|?]|] eqn:Hparent; [|done..].
  destruct (encoder_error name img) eqn:Henc;
    destruct (fs !! (name :: parent)) as [[|?]|] eqn:Hout; simpl; try done;
    by eapply HQ.
Qed.

Lemma Exception_all e : Exception e = true.
Proof. by destruct e. Qed.

(** [get_font] unfolded: what it logs and returns in each of the three
    cases of the two loads. *)
Lemma get_font_run size fs :
  get_font size fs =
    match font_error primary_font size with
    | None => mkRun [EvTruetype primary_font size] fs
                (inr (FreeTypeFont primary_font size))
    | Some _ =>
        match font_error alternate_font size with
        | None => mkRun [EvTruetype primary_font size; EvTruetype alternate_font size]
                    fs (inr (FreeTypeFont alternate_font size))
        | Some _ => mkRun [EvTruetype primary_font size; EvTruetype alternate_font size;
                           EvLoadDefault]
                      fs (inr (DefaultFont None))
        end
    end.
Proof.
  unfold get_font, try_except, catch, truetype, load_default, bind, emit,
    primary_font, alternate_font.
  cbn. destruct (font_error _ size) as [e|]; cbn; [|done].
  rewrite Exception_all. cbn.
  destruct (font_error _ size) as [e'|]; cbn; [|done].
  by rewrite Exception_all.
Qed.

Lemma wp_get_font size Q fs :
  (∀ font ev, saves ev = [] → result (get_font size fs) = inr font → Q font ev fs) →
  wp (get_font size) Q fs.
Proof.
  intros HQ. unfold wp. pose proof (HQ) as HQ'. revert HQ'. rewrite get_font_run.
  destruct (font_error primary_font size);
    [destruct (font_error alternate_font size)|]; cbn; intros HQ'; by apply HQ'.
Qed.

(** A loop that only draws: [I] is kept by the body, nothing is written. *)
Lemma wp_for_each {A S} (I : S → Prop) (xs : list A) (body : S → A → M S) s Q fs :
  I s →
  (∀ s x, I s → wp (body s x) (fun s' ev fs' => I s' ∧ saves ev = [] ∧ fs' = fs) fs) →
  (∀ s' ev, I s' → saves ev = [] → Q s' ev fs) →
  wp (for_each xs body s) Q fs.
Proof.
  intros Hs Hbody. revert s Q Hs.
  induction xs as [|x xs IH]; intros s Q Hs HQ; simpl.
  - apply wp_ret. by apply HQ.
  - apply wp_bind. eapply wp_mono; [by apply Hbody|].
    intros s' ev fs' (Hs' & Hev & ->). cbv beta.
    apply IH; [done|]. intros s'' ev' Hs'' Hev'. apply HQ; [done|].
    by rewrite saves_app, Hev, Hev'.
Qed.

End Rules.

(** Symbolic execution of the straight-line code of the script. *)
Ltac wp_step :=
  lazymatch goal with
  | |- wp (bind _ _) _ _ => apply wp_bind
  | |- wp (ret _) _ _ => apply wp_ret
  | |- wp (lift _) _ _ => apply wp_lift; intros
  | |- wp (Image_new _ _ _) _ _ => apply wp_Image_new; intros
  | |- wp (rectangle _ _ _ _ _ _) _ _ => apply wp_rectangle; intros
  | |- wp (rounded_rectangle _ _ _ _ _ _ _ _ _) _ _ =>
      apply wp_rounded_rectangle; intros
  | |- wp (ellipse _ _ _ _ _ _) _ _ => apply wp_ellipse; intros
  | |- wp (textbbox _ _ _) _ _ => apply wp_textbbox; intros
  | |- wp (text _ _ _ _ _) _ _ => apply wp_text; intros
  | |- wp (get_font _) _ _ => apply wp_get_font; intros
  | |- wp (save _ _) _ _ => apply wp_save; intros
  end; cbv beta iota zeta.

Section Generators.

Context `{Pillow} `{Host}.

Lemma wp_create_icon size filename Q fs :
  (∀ img ev font x y,
     0 < size →
     img = icon_bitmap size x y font →
     result (get_font (size / 3) fs) = inr font →
     saves ev = [(ASSETS_DIR </> filename, img)] →
     fs !! (ASSETS_DIR </> filename) ≠ Some Dir →
     Q (ASSETS_DIR </> filename) ev (<[ASSETS_DIR </> filename := File img]> fs)) →
  wp (create_icon size filename) Q fs.
Proof.
  intros HQ. unfold create_icon. repeat wp_step.
  eapply HQ; [lia | reflexivity | eassumption | | assumption].
  rewrite !saves_app. by match goal with Hev : saves _ = [] |- _ => rewrite Hev end.
Qed.

Lemma wp_create_screenshot idx title subtitle Q fs :
  let out := SCREENSHOTS_DIR </> ("screenshot-" +:+ pretty idx +:+ ".png") in
  (∀ img ev,
     im_size img = (1280, 800) →
     saves ev = [(out, img)] →
     fs !! out ≠ Some Dir →
     Q out ev (<[out := File img]> fs)) →
  wp (create_screenshot idx title subtitle) Q fs.
Proof.
  intros out HQ. unfold create_screenshot. repeat wp_step.
  apply (wp_for_each (fun st : Image * Z => im_size st.1 = (1280, 800))); [done|..].
  - intros [img y] _ Hsize. repeat wp_step. by rewrite !saves_app.
  - intros [img y] ev' Hsize Hev'. repeat wp_step.
    apply HQ; [done| |done].
    rewrite !saves_app.
    by repeat match goal with Hev : saves _ = [] |- _ => rewrite Hev; clear Hev end.
Qed.

Lemma wp_create_promo width height filename title subtitle Q fs :
  (∀ img ev,
     im_size img = (width, height) →
     saves ev = [(STORE_DIR </> filename, img)] →
     fs !! (STORE_DIR </> filename) ≠ Some Dir →
     Q (STORE_DIR </> filename) ev (<[STORE_DIR </> filename := File img]> fs)) →
  wp (create_promo width height filename title subtitle) Q fs.
Proof.
  intros HQ. unfold create_promo. repeat wp_step.
  apply (wp_for_each (fun img : Image => im_size img = (width, height))); [done|..].
  - intros img i Hsize. by repeat wp_step.
  - intros img ev' Hsize Hev'. repeat wp_step.
    apply HQ; [done| |done].
    rewrite !saves_app.
    by repeat match goal with Hev : saves _ = [] |- _ => rewrite Hev; clear Hev end.
Qed.

End Generators.

(** ** The file tree *)

Lemma cons_neq_self {A} (x : A) (l : list A) : x :: l ≠ l.
Proof. intros Heq. apply (f_equal length) in Heq. simpl in Heq. lia. Qed.

Lemma node_insert_ne (fs : FS) p q n : p ≠ q → node (<[p := n]> fs) q = node fs q.
Proof. intros Hne. destruct q; [done|]. simpl. by rewrite lookup_insert_ne. Qed.

Lemma only_new_dirs_refl fs : only_new_dirs fs fs.
Proof. intros p. by left. Qed.

Lemma only_new_dirs_trans fs1 fs2 fs3 :
  only_new_dirs fs1 fs2 → only_new_dirs fs2 fs3 → only_new_dirs fs1 fs3.
Proof.
  intros H12 H23 p. destruct (H12 p) as [E12|[E1 E2]], (H23 p) as [E23|[E2' E3]].
  - left. congruence.
  - right. split; congruence.
  - right. split; congruence.
  - congruence.
Qed.

Lemma only_new_dirs_insert (fs : FS) p :
  fs !! p = None → only_new_dirs fs (<[p := Dir]> fs).
Proof.
  intros Hp q. destruct (decide (p = q)) as [<-|Hne].
  - right. by rewrite lookup_insert_eq.
  - left. by rewrite lookup_insert_ne.
Qed.

Lemma same_kind_refl n : same_kind n n.
Proof. by destruct n. Qed.

Lemma same_kind_trans n1 n2 n3 : same_kind n1 n2 → same_kind n2 n3 → same_kind n1 n3.
Proof. by destruct n1, n2, n3. Qed.

Lemma grows_refl fs : grows fs fs.
Proof. intros p n Hp. exists n. split; [done|apply same_kind_refl]. Qed.

Lemma grows_trans fs1 fs2 fs3 : grows fs1 fs2 → grows fs2 fs3 → grows fs1 fs3.
Proof.
  intros H12 H23 p n1 Hp. destruct (H12 p n1 Hp) as (n2 & Hp2 & Hk12).
  destruct (H23 p n2 Hp2) as (n3 & Hp3 & Hk23).
  exists n3. split; [done|]. by eapply same_kind_trans.
Qed.

Lemma only_new_dirs_grows fs fs' : only_new_dirs fs fs' → grows fs fs'.
Proof.
  intros Hnew p n Hp. exists n. split; [|apply same_kind_refl].
  destruct (Hnew p) as [->|[Hnone _]]; congruence.
Qed.

Lemma grows_node fs fs' p n :
  grows fs fs' → node fs p = Some n → ∃ n', node fs' p = Some n' ∧ same_kind n n'.
Proof.
  intros Hg Hp. destruct p as [|c p].
  - exists n. split; [done|apply same_kind_refl].
  - by apply Hg.
Qed.

Lemma grows_is_dir fs fs' p : grows fs fs' → is_dir fs p = true → is_dir fs' p = true.
Proof.
  unfold is_dir. intros Hg Hp. destruct (node fs p) as [[|?]|] eqn:Hn; try done.
  destruct (grows_node _ _ _ _ Hg Hn) as (n' & -> & Hk). by destruct n'.
Qed.

Lemma grows_has_parent fs fs' p : grows fs fs' → has_parent fs p → has_parent fs' p.
Proof.
  destruct p as [|c parent]; [done|]. simpl. intros Hg Hp.
  destruct (node fs parent) as [n|] eqn:Hn; [|done].
  by destruct (grows_node _ _ _ _ Hg Hn) as (n' & -> & _).
Qed.

(** After a successful write the tree has grown: the file is new or
    replaces a file. *)
Lemma grows_write (fs : FS) p img :
  fs !! p ≠ Some Dir → grows fs (<[p := File img]> fs).
Proof.
  intros Hp q n Hq. destruct (decide (p = q)) as [<-|Hne].
  - rewrite lookup_insert_eq. eexists. split; [done|]. by destruct n.
  - rewrite lookup_insert_ne by done. exists n. split; [done|apply same_kind_refl].
Qed.

(** *** mkdir *)

Lemma os_mkdir_cases p fs :
  (os_mkdir p fs = mkRun [] (<[p := Dir]> fs) (inr tt) ∧ fs !! p = None ∧
     ∃ c parent, p = c :: parent ∧ node fs parent = Some Dir) ∨
  (∃ e, os_mkdir p fs = mkRun [] fs (inl e) ∧
     if bool_decide (e = FileNotFoundError)
     then ∃ c parent, p = c :: parent ∧ node fs parent = None
     else has_parent fs p).
Proof.
  destruct p as [|c parent].
  - right. by exists FileExistsError.
  - unfold os_mkdir, has_parent.
    destruct (node fs parent) as [[|img]|] eqn:Hparent.
    + destruct (fs !! (c :: parent)) as [n|] eqn:Hp.
      * right. by exists FileExistsError.
      * left. split_and!; [done..|]. by exists c, parent.
    + right. by exists NotADirectoryError.
    + right. exists FileNotFoundError. split; [done|]. by exists c, parent.
Qed.

Lemma mkdir_done_created (fs : FS) c parent :
  fs !! (c :: parent) = None → node fs parent = Some Dir →
  mkdir_done (c :: parent) fs (mkRun [] (<[c :: parent := Dir]> fs) (inr tt)).
Proof.
  intros Hp Hparent. split_and!; simpl.
  - done.
  - by apply only_new_dirs_insert.
  - unfold is_dir. simpl. by rewrite lookup_insert_eq.
  - rewrite node_insert_ne by apply cons_neq_self. by rewrite Hparent.
Qed.

Lemma unless_is_dir_done p e fs :
  has_parent fs p → result (unless_is_dir p e fs) = inr tt →
  mkdir_done p fs (unless_is_dir p e fs).
Proof.
  unfold unless_is_dir. intros Hparent. destruct (is_dir fs p) eqn:Hdir; [|done].
  intros _. split_and!; simpl; auto using only_new_dirs_refl.
Qed.

Lemma mkdir_exist_ok_done p fs :
  result (mkdir_exist_ok p fs) = inr tt → mkdir_done p fs (mkdir_exist_ok p fs).
Proof.
  unfold mkdir_exist_ok, catch. cbv zeta.
  destruct (os_mkdir_cases p fs) as [(-> & Hnone & c & parent & -> & Hparent)|(e & -> & He)];
    simpl.
  - intros _. by apply mkdir_done_created.
  - destruct e; simpl in He; try done;
      intros Hr; by apply (unless_is_dir_done p _ fs) in Hr.
Qed.

Lemma bind_inr {A B} (m : M A) (k : A → M B) fs b :
  result (bind m k fs) = inr b →
  ∃ a, result (m fs) = inr a ∧
       result (k a (final (m fs))) = inr b ∧
       events (bind m k fs) = events (m fs) ++ events (k a (final (m fs))) ∧
       final (bind m k fs) = final (k a (final (m fs))).
Proof.
  unfold bind. cbv zeta. destruct (result (m fs)) as [e|a]; simpl; [done|].
  intros Hr. by exists a.
Qed.

Lemma mkdir_spec p fs :
  result (mkdir p fs) = inr tt → mkdir_done p fs (mkdir p fs).
Proof.
  revert fs. induction p as [|c parent IH]; intros fs.
  - intros _. split_and!; simpl; auto using only_new_dirs_refl.
  - cbn [mkdir]. unfold catch. cbv zeta.
    destruct (os_mkdir_cases (c :: parent) fs)
      as [(-> & Hnone & c' & parent' & [= <- <-] & Hparent)|(e & -> & He)]; simpl.
    + intros _. by apply mkdir_done_created.
    + destruct e; simpl in He; try done;
        try (intros Hr; by apply (unless_is_dir_done (c :: parent) _ fs) in Hr).
      intros Hr. apply bind_inr in Hr as ([] & Hr1 & Hr2 & Hev & Hfs).
      apply IH in Hr1 as (Hev1 & Hnew1 & _ & _).
      apply mkdir_exist_ok_done in Hr2 as (Hev2 & Hnew2 & Hdir2 & Hparent2).
      unfold mkdir_done. simpl. rewrite Hev, Hfs, Hev1, Hev2.
      split_and!; try done. by eapply only_new_dirs_trans.
Qed.

(** A second [mkdir] of a directory that is there does nothing. *)
Lemma mkdir_again p fs :
  is_dir fs p = true → has_parent fs p → mkdir p fs = mkRun [] fs (inr tt).
Proof.
  intros Hdir Hparent. destruct p as [|c parent]; [done|].
  cbn [mkdir]. unfold catch. cbv zeta.
  destruct (os_mkdir_cases (c :: parent) fs)
    as [(_ & Hnone & _)|(e & -> & He)]; simpl.
  - unfold is_dir in Hdir. simpl in Hdir. by rewrite Hnone in Hdir.
  - destruct e; simpl in He; unfold unless_is_dir; rewrite ?Hdir; try done.
    destruct He as (c' & parent' & [= <- <-] & Hnone). simpl in Hparent. done.
Qed.

Section Driver.

Context `{Pillow} `{Host}.

Lemma wp_mkdir p Q fs :
  (∀ fs', only_new_dirs fs fs' → is_dir fs' p = true → Q tt [] fs') →
  wp (mkdir p) Q fs.
Proof.
  intros HQ. unfold wp. destruct (result (mkdir p fs)) as [e|[]] eqn:Hr; [done|].
  apply mkdir_spec in Hr as (-> & Hnew & Hdir & _). by apply HQ.
Qed.

Lemma wp_ensure_dirs Q fs :
  (∀ fs', only_new_dirs fs fs' →
     is_dir fs' ASSETS_DIR = true → is_dir fs' SCREENSHOTS_DIR = true →
     Q tt [] fs') →
  wp ensure_dirs Q fs.
Proof.
  intros HQ. unfold ensure_dirs. cbn [for_each].
  apply wp_bind, wp_mkdir. intros fs1 Hnew1 Hdir1. cbv beta.
  apply wp_bind, wp_mkdir. intros fs2 Hnew2 Hdir2. cbv beta.
  apply wp_ret. apply HQ; [by eapply only_new_dirs_trans| |done].
  eapply grows_is_dir; [by apply only_new_dirs_grows|done].
Qed.

Lemma wp_print s Q fs : Q tt [EvPrint s] fs → wp (print s) Q fs.
Proof. done. Qed.

End Driver.

Ltac wp_call :=
  lazymatch goal with
  | |- wp (bind _ _) _ _ => apply wp_bind
  | |- wp ensure_dirs _ _ => apply wp_ensure_dirs; intros
  | |- wp (create_icon _ _) _ _ => apply wp_create_icon; intros
  | |- wp (create_screenshot _ _ _) _ _ => apply wp_create_screenshot; intros
  | |- wp (create_promo _ _ _ _ _) _ _ => apply wp_create_promo; intros
  | |- wp (print _) _ _ => apply wp_print
  end; cbv beta.

Section Main.

Context `{Pillow} `{Host}.

Lemma wp_main Q fs :
  (∀ fs' ev imgs,
     only_new_dirs fs fs' →
     saves ev = zip output_paths imgs →
     Forall2 (fun img size => im_size img = size) imgs output_sizes →
     Q tt ev (write_all (saves ev) fs')) →
  wp main Q fs.
Proof.
  intros HQ. unfold main. repeat wp_call.
  lazymatch goal with
  | Hnew : only_new_dirs fs ?fs' |- Q _ ?EV ?FS =>
      assert (FS = write_all (saves EV) fs' ∧
              saves EV = zip output_paths (bitmaps EV) ∧
              Forall2 (fun img size => im_size img = size) (bitmaps EV) output_sizes)
        as (-> & Hsaves & Hsizes); [|exact (HQ _ _ _ Hnew Hsaves Hsizes)]
  end.
  unfold bitmaps. rewrite !saves_app.
  repeat match goal with Hev : saves _ = _ |- _ => rewrite Hev; clear Hev end.
  subst. split_and!; [reflexivity..|].
  repeat constructor; assumption.
Qed.

End Main.

(** ** Font resolution *)

Section FontResolution.

Context `{Host}.

(** C1: for every requested size [get_font] returns a font and raises
    nothing, whatever fonts the machine has; it leaves the file tree as it
    was; the font is the primary system font, else the alternate one, and
    when neither loads it is the built-in default font. *)
Theorem get_font_never_raises (size : Z) (fs : FS) :
  ∃ font,
    result (get_font size fs) = inr font ∧
    final (get_font size fs) = fs ∧
    (font = FreeTypeFont primary_font size ∨
     font = FreeTypeFont alternate_font size ∨
     font = DefaultFont None) ∧
    (font_error primary_font size ≠ None →
     font_error alternate_font size ≠ None →
     font = DefaultFont None).
Proof.
  rewrite get_font_run.
  destruct (font_error primary_font size) as [e|];
    [destruct (font_error alternate_font size) as [e'|]|];
    eexists; (split_and!; [reflexivity|reflexivity|eauto|try done]).
Qed.

(** C6: [get_font] tries the primary system font first and stops there
    when it loads; only when it fails does it try the alternate font, and
    stops there when that one loads; the built-in default font is loaded,
    and returned, only when both have failed. *)
Theorem get_font_order (size : Z) (fs : FS) :
  let r := get_font size fs in
  (font_error primary_font size = None →
     events r = [EvTruetype primary_font size] ∧
     result r = inr (FreeTypeFont primary_font size)) ∧
  (font_error primary_font size ≠ None →
   font_error alternate_font size = None →
     events r = [EvTruetype primary_font size; EvTruetype alternate_font size] ∧
     result r = inr (FreeTypeFont alternate_font size)) ∧
  (font_error primary_font size ≠ None →
   font_error alternate_font size ≠ None →
     events r = [EvTruetype primary_font size; EvTruetype alternate_font size;
                 EvLoadDefault] ∧
     result r = inr (DefaultFont None)) ∧
  (result r = inr (DefaultFont None) ∨ EvLoadDefault ∈ events r →
     font_error primary_font size ≠ None ∧
     font_error alternate_font size ≠ None).
Proof.
  cbv zeta. rewrite get_font_run.
  destruct (font_error primary_font size) as [e|];
    [destruct (font_error alternate_font size) as [e'|]|]; simpl;
    split_and!; try done.
  - intros [[=]|Hin]. rewrite !elem_of_cons, elem_of_nil in Hin.
    intuition discriminate.
  - intros [[=]|Hin]. rewrite !elem_of_cons, elem_of_nil in Hin.
    intuition discriminate.
Qed.

(** C9: when neither system font loads, [get_font] returns what
    [load_default] returns when called without a size; the result is the
    same font for any two requested sizes, and it is not the default font
    at the requested size. *)
Theorem get_font_fallback_ignores_size (s1 s2 : Z) (fs1 fs2 : FS) :
  font_error primary_font s1 ≠ None → font_error alternate_font s1 ≠ None →
  font_error primary_font s2 ≠ None → font_error alternate_font s2 ≠ None →
  result (get_font s1 fs1) = result (get_font s2 fs2) ∧
  result (get_font s1 fs1) = result (load_default None fs1) ∧
  result (get_font s1 fs1) ≠ inr (DefaultFont (Some s1)).
Proof.
  intros Hp1 Ha1 Hp2 Ha2. rewrite !get_font_run.
  destruct (font_error primary_font s1); [|done].
  destruct (font_error alternate_font s1); [|done].
  destruct (font_error primary_font s2); [|done].
  destruct (font_error alternate_font s2); [|done].
  done.
Qed.

End FontResolution.

Lemma get_font_order_witness :
  events (@get_font arial_host 12 ∅) =
    [EvTruetype primary_font 12; EvTruetype alternate_font 12] ∧
  result (@get_font arial_host 12 ∅) = inr (FreeTypeFont alternate_font 12).
Proof.
  destruct (@get_font_order arial_host 12 ∅) as (_ & Halt & _).
  apply Halt; done.
Defined.

Lemma get_font_fallback_ignores_size_witness :
  result (@get_font linux_host 5 ∅) = result (@get_font linux_host 52 ∅) ∧
  result (@get_font linux_host 5 ∅) = result (load_default None ∅) ∧
  result (@get_font linux_host 5 ∅) ≠ inr (DefaultFont (Some 5)).
Proof.
  apply (@get_font_fallback_ignores_size linux_host 5 52 ∅ ∅); done.
Defined.

(** ** The icon generator *)

Section Icon.

Context `{Pillow} `{Host}.

(** What a call of [create_icon] that returns has done: the bitmap it has
    drawn is in the file tree under the path it returns. *)
Lemma create_icon_returns size filename fs out :
  result (create_icon size filename fs) = inr out →
  ∃ font x y,
    0 < size ∧
    out = ASSETS_DIR </> filename ∧
    final (create_icon size filename fs) !! out =
      Some (File (icon_bitmap size x y font)).
Proof.
  apply (wp_result _ (fun out _ fs' => ∃ font x y,
    0 < size ∧ out = ASSETS_DIR </> filename ∧
    fs' !! out = Some (File (icon_bitmap size x y font)))).
  apply wp_create_icon. intros img ev font x y Hsize -> _ _ _.
  exists font, x, y. split_and!; [done..|]. apply lookup_insert_eq.
Qed.

(** C2: for a positive size, the bitmap a call of [create_icon] saves is
    [size] pixels wide and [size] pixels high. *)
Theorem create_icon_dimensions (size : Z) (filename : string) (fs : FS) (out : Path) :
  0 < size →
  result (create_icon size filename fs) = inr out →
  ∃ img, final (create_icon size filename fs) !! out = Some (File img) ∧
         im_width img = size ∧ im_height img = size.
Proof.
  intros _ Hr. apply create_icon_returns in Hr as (font & x & y & _ & _ & Hout).
  eexists. split_and!; [exact Hout|reflexivity..].
Qed.

(** C5: for a positive size, the accent circle of the saved icon is the
    ellipse inscribed in the box of half-side [size // 3] around the point
    [(size // 2, size // 2)]: its radius is a third of the side, rounded
    down; its centre is the middle of the side, so that the margins left of
    it and right of it (above and below) differ by at most one pixel; and
    the box lies inside the bitmap. *)
Theorem create_icon_circle (size : Z) (filename : string) (fs : FS) (out : Path) :
  0 < size →
  result (create_icon size filename fs) = inr out →
  ∃ img background x0 y0 x1 y1 fill monogram,
    final (create_icon size filename fs) !! out = Some (File img) ∧
    im_size img = (size, size) ∧
    im_ops img = [background; Ellipse x0 y0 x1 y1 fill; monogram] ∧
    (x0 + x1 = 2 * (size / 2) ∧ y0 + y1 = 2 * (size / 2)) ∧
    (x1 - x0 = 2 * (size / 3) ∧ y1 - y0 = 2 * (size / 3)) ∧
    3 * (size / 3) ≤ size < 3 * (size / 3) + 3 ∧
    (0 ≤ x0 - (size - 1 - x1) ≤ 1 ∧ 0 ≤ y0 - (size - 1 - y1) ≤ 1) ∧
    (0 ≤ x0 ∧ x1 ≤ size - 1 ∧ 0 ≤ y0 ∧ y1 ≤ size - 1).
Proof.
  intros Hsize Hr. apply create_icon_returns in Hr as (font & x & y & _ & _ & Hout).
  do 8 eexists. split; [exact Hout|]. simpl.
  pose proof (Z.div_mod size 2 ltac:(lia)).
  pose proof (Z.mod_pos_bound size 2 ltac:(lia)).
  pose proof (Z.div_mod size 3 ltac:(lia)).
  pose proof (Z.mod_pos_bound size 3 ltac:(lia)).
  split_and!; try done; lia.
Qed.

(** C10: the background of every icon that [create_icon] saves is a rounded
    rectangle over the whole bitmap with corner radius
    [max(6, size // 8)]; the radius is 6 for every size below 48 (and only
    then is it more than an eighth of the side), so for the 16-pixel icon
    it is 6, and an eighth of the side is 2. *)
Theorem create_icon_radius (size : Z) (filename : string) (fs : FS) (out : Path) :
  result (create_icon size filename fs) = inr out →
  ∃ img radius fill outline width rest,
    final (create_icon size filename fs) !! out = Some (File img) ∧
    im_ops img =
      RoundedRectangle 0 0 (size - 1) (size - 1) radius fill outline width :: rest ∧
    radius = Z.max 6 (size / 8) ∧
    (size < 48 → radius = 6) ∧
    (size < 48 ↔ size / 8 < radius) ∧
    (size = 16 → radius = 6 ∧ size / 8 = 2).
Proof.
  intros Hr. apply create_icon_returns in Hr as (font & x & y & Hsize & _ & Hout).
  do 6 eexists. split; [exact Hout|]. simpl. split; [done|].
  pose proof (Z.div_mod size 8 ltac:(lia)).
  pose proof (Z.mod_pos_bound size 8 ltac:(lia)).
  split_and!; [done|lia..].
Qed.

End Icon.

Lemma create_icon_dimensions_witness :
  ∃ img,
    final (@create_icon demo_pillow linux_host 16 "icon16.png" checkout)
      !! ["icon16.png"; "icons"; "assets"; "myayai-extension"; "repo"]
      = Some (File img) ∧
    im_width img = 16 ∧ im_height img = 16.
Proof.
  apply (@create_icon_dimensions demo_pillow linux_host 16 "icon16.png" checkout).
  - lia.
  - vm_compute. reflexivity.
Defined.

Lemma create_icon_circle_witness :
  ∃ img background x0 y0 x1 y1 fill monogram,
    final (@create_icon demo_pillow linux_host 16 "icon16.png" checkout)
      !! ["icon16.png"; "icons"; "assets"; "myayai-extension"; "repo"]
      = Some (File img) ∧
    im_size img = (16, 16) ∧
    im_ops img = [background; Ellipse x0 y0 x1 y1 fill; monogram] ∧
    (x0 + x1 = 2 * (16 / 2) ∧ y0 + y1 = 2 * (16 / 2)) ∧
    (x1 - x0 = 2 * (16 / 3) ∧ y1 - y0 = 2 * (16 / 3)) ∧
    3 * (16 / 3) ≤ 16 < 3 * (16 / 3) + 3 ∧
    (0 ≤ x0 - (16 - 1 - x1) ≤ 1 ∧ 0 ≤ y0 - (16 - 1 - y1) ≤ 1) ∧
    (0 ≤ x0 ∧ x1 ≤ 16 - 1 ∧ 0 ≤ y0 ∧ y1 ≤ 16 - 1).
Proof.
  apply (@create_icon_circle demo_pillow linux_host 16 "icon16.png" checkout).
  - lia.
  - vm_compute. reflexivity.
Defined.

Lemma create_icon_radius_witness :
  ∃ img radius fill outline width rest,
    final (@create_icon demo_pillow linux_host 16 "icon16.png" checkout)
      !! ["icon16.png"; "icons"; "assets"; "myayai-extension"; "repo"]
      = Some (File img) ∧
    im_ops img = RoundedRectangle 0 0 (16 - 1) (16 - 1) radius fill outline width :: rest ∧
    radius = Z.max 6 (16 / 8) ∧
    (16 < 48 → radius = 6) ∧
    (16 < 48 ↔ 16 / 8 < radius) ∧
    (16 = 16 → radius = 6 ∧ 16 / 8 = 2).
Proof.
  apply (@create_icon_radius demo_pillow linux_host 16 "icon16.png" checkout).
  vm_compute. reflexivity.
Defined.

(** ** The driver *)

Lemma write_all_cons w ws fs :
  write_all (w :: ws) fs = write_all ws (<[w.1 := File w.2]> fs).
Proof. done. Qed.

Lemma is_file_insert (fs : FS) p q img :
  is_file (<[p := File img]> fs) q ↔ q = p ∨ is_file fs q.
Proof.
  unfold is_file. destruct (decide (p = q)) as [<-|Hne].
  - rewrite lookup_insert_eq. split; [by left|]. intros _. by exists img.
  - rewrite lookup_insert_ne by done. split; [by right|]. by intros [->|?].
Qed.

Lemma write_all_other (ws : list (Path * Image)) (fs : FS) (p : Path) :
  p ∉ ws.*1 → write_all ws fs !! p = fs !! p.
Proof.
  revert fs. induction ws as [|w ws IH]; intros fs Hp; [done|].
  rewrite fmap_cons, not_elem_of_cons in Hp. destruct Hp as (Hne & Hp).
  rewrite write_all_cons, IH by done. by rewrite lookup_insert_ne.
Qed.

Lemma write_all_is_file ws fs p :
  is_file (write_all ws fs) p ↔ p ∈ ws.*1 ∨ is_file fs p.
Proof.
  revert fs. induction ws as [|w ws IH]; intros fs.
  - simpl. rewrite elem_of_nil. tauto.
  - rewrite write_all_cons, IH, is_file_insert, fmap_cons, elem_of_cons. tauto.
Qed.

Lemma only_new_dirs_is_file fs fs' p :
  only_new_dirs fs fs' → is_file fs' p ↔ is_file fs p.
Proof.
  intros Hnew. unfold is_file. destruct (Hnew p) as [->|[Hnone Hdir]]; [done|].
  rewrite Hnone, Hdir. split; by intros [img [=]].
Qed.

Section Manifest_facts.

Context `{Pillow} `{Host}.

Lemma ASSETS_DIR_parts : ASSETS_DIR = ["icons"; "assets"; "myayai-extension"] ++ ROOT.
Proof. reflexivity. Qed.

Lemma STORE_DIR_parts : STORE_DIR = ["store-assets"] ++ ROOT.
Proof. reflexivity. Qed.

Lemma SCREENSHOTS_DIR_parts : SCREENSHOTS_DIR = ["screenshots"; "store-assets"] ++ ROOT.
Proof. reflexivity. Qed.

Lemma icon_in_output_paths name :
  name :: ASSETS_DIR ∈ output_paths ↔ name ∈ icon_names.
Proof.
  unfold output_paths. rewrite !elem_of_app, !list_elem_of_fmap, list_elem_of_singleton.
  split.
  - intros [(n & [= ->] & Hn)|[(n & [= _ Hdir] & _)|[= _ Hdir]]]; [done|..];
      rewrite ASSETS_DIR_parts, ?SCREENSHOTS_DIR_parts, ?STORE_DIR_parts in Hdir;
      by simplify_eq/=.
  - intros Hn. left. by exists name.
Qed.

Lemma screenshot_in_output_paths name :
  name ∈ screenshot_names → name :: SCREENSHOTS_DIR ∈ output_paths.
Proof.
  intros Hn. unfold output_paths. rewrite !elem_of_app, !list_elem_of_fmap.
  right. left. by exists name.
Qed.

(** What a run of [main] that returns has done: some directories are new,
    the ten bitmaps have been written under the ten output paths, in order,
    and nothing else has changed. *)
Lemma main_returns fs :
  result (main fs) = inr tt →
  ∃ fs' imgs,
    only_new_dirs fs fs' ∧
    saves (events (main fs)) = zip output_paths imgs ∧
    Forall2 (fun img size => im_size img = size) imgs output_sizes ∧
    final (main fs) = write_all (zip output_paths imgs) fs'.
Proof.
  apply (wp_result _ (fun _ ev fs'' => ∃ fs' imgs,
    only_new_dirs fs fs' ∧ saves ev = zip output_paths imgs ∧
    Forall2 (fun img size => im_size img = size) imgs output_sizes ∧
    fs'' = write_all (zip output_paths imgs) fs')).
  apply wp_main. intros fs' ev imgs Hnew Hsaves Hsizes.
  exists fs', imgs. by rewrite <- Hsaves.
Qed.

Lemma main_saved_paths fs :
  result (main fs) = inr tt → saved_paths (events (main fs)) = output_paths.
Proof.
  intros Hr. apply main_returns in Hr as (fs' & imgs & _ & Hsaves & Hsizes & _).
  unfold saved_paths. rewrite Hsaves. apply fst_zip.
  apply Forall2_length in Hsizes. rewrite Hsizes. done.
Qed.

Lemma main_is_file fs p :
  result (main fs) = inr tt →
  is_file (final (main fs)) p ↔ p ∈ output_paths ∨ is_file fs p.
Proof.
  intros Hr. pose proof (main_saved_paths fs Hr) as Hpaths.
  apply main_returns in Hr as (fs' & imgs & Hnew & Hsaves & _ & ->).
  rewrite write_all_is_file, (only_new_dirs_is_file fs fs') by done.
  unfold saved_paths in Hpaths. by rewrite <- Hsaves, Hpaths.
Qed.

(** C3: the promo tile a run of [main] leaves is 440 by 280 pixels, and
    the bitmap a call of [create_screenshot] saves is 1280 by 800 pixels,
    whatever its index, title and subtitle; the ten bitmaps a run of
    [main] writes have the sizes of [output_sizes], in order. *)
Theorem fixed_dimensions (fs : FS) (idx : Z) (title subtitle : string)
    (fs0 : FS) (out : Path) :
  result (main fs) = inr tt →
  result (create_screenshot idx title subtitle fs0) = inr out →
  (∃ promo, final (main fs) !! (STORE_DIR </> "promo-440x280.png") = Some (File promo) ∧
            im_width promo = 440 ∧ im_height promo = 280) ∧
  (∃ shot, final (create_screenshot idx title subtitle fs0) !! out = Some (File shot) ∧
           im_width shot = 1280 ∧ im_height shot = 800) ∧
  Forall2 (fun img size => im_size img = size) (bitmaps (events (main fs))) output_sizes.
Proof.
  intros Hmain Hshot. split_and!.
  - revert Hmain. apply (wp_result _ (fun _ _ fs' => ∃ promo,
      fs' !! (STORE_DIR </> "promo-440x280.png") = Some (File promo) ∧
      im_width promo = 440 ∧ im_height promo = 280)).
    unfold main. repeat wp_call.
    eexists. split; [apply lookup_insert_eq|].
    unfold im_width, im_height.
    by match goal with Hsize : im_size _ = (440, 280) |- _ => rewrite Hsize end.
  - revert Hshot. apply (wp_result _ (fun out _ fs' => ∃ shot,
      fs' !! out = Some (File shot) ∧ im_width shot = 1280 ∧ im_height shot = 800)).
    apply wp_create_screenshot. intros shot ev Hsize _ _.
    exists shot. split; [apply lookup_insert_eq|].
    unfold im_width, im_height. by rewrite Hsize.
  - apply main_returns in Hmain as (fs' & imgs & _ & Hsaves & Hsizes & _).
    unfold bitmaps. rewrite Hsaves, snd_zip; [done|].
    apply Forall2_length in Hsizes. by rewrite Hsizes.
Qed.

(** C4, as the code has it: after a run of [main] that returns, the four
    icon files are in the icons directory and the five screenshot files
    in the screenshots directory; a file found in the icons directory
    after the run is one of the four or was there before the run; a file
    that was in the icons directory before the run is still there, and
    still holds what it held unless it is one of the four; so exactly the
    four are there when no other file was there before. *)
Theorem main_manifest (fs : FS) :
  result (main fs) = inr tt →
  (∀ name, name ∈ icon_names → is_file (final (main fs)) (name :: ASSETS_DIR)) ∧
  screenshots_exist (final (main fs)) ∧
  (∀ name, is_file (final (main fs)) (name :: ASSETS_DIR) →
     name ∈ icon_names ∨ is_file fs (name :: ASSETS_DIR)) ∧
  (∀ name, is_file fs (name :: ASSETS_DIR) →
     is_file (final (main fs)) (name :: ASSETS_DIR)) ∧
  (∀ name img, name ∉ icon_names →
     fs !! (name :: ASSETS_DIR) = Some (File img) →
     final (main fs) !! (name :: ASSETS_DIR) = Some (File img)) ∧
  ((∀ name, is_file fs (name :: ASSETS_DIR) → name ∈ icon_names) →
     icons_exactly (final (main fs))).
Proof.
  intros Hr. split_and!.
  - intros name Hname. rewrite main_is_file by done. left.
    by apply icon_in_output_paths.
  - intros name Hname. rewrite main_is_file by done. left.
    by apply screenshot_in_output_paths.
  - intros name. rewrite main_is_file by done. rewrite icon_in_output_paths. tauto.
  - intros name Hname. rewrite main_is_file by done. by right.
  - intros name img Hname Hfile.
    pose proof (main_saved_paths fs Hr) as Hpaths.
    apply main_returns in Hr as (fs' & imgs & Hnew & Hsaves & _ & ->).
    rewrite write_all_other.
    + destruct (Hnew (name :: ASSETS_DIR)) as [->|[Hnone _]]; congruence.
    + unfold saved_paths in Hpaths. rewrite <- Hsaves, Hpaths.
      by rewrite icon_in_output_paths.
  - intros Hbefore name. rewrite main_is_file by done.
    rewrite icon_in_output_paths. specialize (Hbefore name). tauto.
Qed.

End Manifest_facts.

Lemma fixed_dimensions_witness :
  (∃ promo,
     final (@main demo_pillow linux_host checkout)
       !! (@STORE_DIR linux_host </> "promo-440x280.png") = Some (File promo) ∧
     im_width promo = 440 ∧ im_height promo = 280) ∧
  (∃ shot,
     final (@create_screenshot demo_pillow linux_host 7 "Title" "Subtitle" checkout)
       !! ["screenshot-7.png"; "screenshots"; "store-assets"; "repo"]
       = Some (File shot) ∧
     im_width shot = 1280 ∧ im_height shot = 800) ∧
  Forall2 (fun img size => im_size img = size)
    (bitmaps (events (@main demo_pillow linux_host checkout))) output_sizes.
Proof.
  apply (@fixed_dimensions demo_pillow linux_host checkout 7 "Title" "Subtitle" checkout).
  - vm_compute. reflexivity.
  - vm_compute. reflexivity.
Defined.

Lemma main_manifest_witness :
  (∀ name, name ∈ icon_names →
     is_file (final (@main demo_pillow linux_host checkout)) (name :: @ASSETS_DIR linux_host)) ∧
  @screenshots_exist linux_host (final (@main demo_pillow linux_host checkout)) ∧
  (∀ name,
     is_file (final (@main demo_pillow linux_host checkout)) (name :: @ASSETS_DIR linux_host) →
     name ∈ icon_names ∨ is_file checkout (name :: @ASSETS_DIR linux_host)) ∧
  (∀ name, is_file checkout (name :: @ASSETS_DIR linux_host) →
     is_file (final (@main demo_pillow linux_host checkout)) (name :: @ASSETS_DIR linux_host)) ∧
  (∀ name img, name ∉ icon_names →
     checkout !! (name :: @ASSETS_DIR linux_host) = Some (File img) →
     final (@main demo_pillow linux_host checkout) !! (name :: @ASSETS_DIR linux_host)
       = Some (File img)) ∧
  ((∀ name, is_file checkout (name :: @ASSETS_DIR linux_host) → name ∈ icon_names) →
     @icons_exactly linux_host (final (@main demo_pillow linux_host checkout))).
Proof.
  apply (@main_manifest demo_pillow linux_host checkout).
  vm_compute. reflexivity.
Defined.

(** C4 as the claim words it fails: [main] leaves alone what the icons
    directory already holds, so a run from a checkout with a logo in that
    directory ends with five files there, not exactly the four. *)
Lemma main_keeps_other_icons :
  ¬ (∀ (P : Pillow) (h : Host) (fs : FS),
       result (@main P h fs) = inr tt →
       @icons_exactly h (final (@main P h fs)) ∧
       @screenshots_exist h (final (@main P h fs))).
Proof.
  intros Hclaim.
  destruct (Hclaim demo_pillow linux_host checkout) as [Hicons _].
  { vm_compute. reflexivity. }
  destruct (Hicons "logo.png") as [Hlogo _].
  assert ("logo.png" ∈ icon_names) as Hin.
  { apply Hlogo. exists logo. vm_compute. reflexivity. }
  unfold icon_names in Hin. rewrite !elem_of_cons, elem_of_nil in Hin.
  intuition discriminate.
Qed.

(** ** Computations that leave the file tree alone *)

Lemma pure_ret {A} (a : A) : pure (ret a).
Proof. done. Qed.

Lemma pure_raise {A} (e : exn) : pure (@raise A e).
Proof. done. Qed.

Lemma pure_emit ev : pure (emit ev).
Proof. done. Qed.

Lemma pure_bind {A B} (m : M A) (k : A → M B) :
  pure m → (∀ a, pure (k a)) → pure (bind m k).
Proof.
  intros Hm Hk fs fs'. unfold bind. cbv zeta.
  destruct (Hm fs fs') as (Hfs & Hr & Hev), (Hm fs' fs) as (Hfs' & _ & _).
  rewrite Hfs, Hfs', <- Hr, <- Hev.
  destruct (result (m fs)) as [e|a]; simpl; [done|].
  destruct (Hk a fs fs') as (-> & -> & ->). done.
Qed.

Lemma pure_catch {A} (m : M A) (h : exn → M A) :
  pure m → (∀ e, pure (h e)) → pure (catch m h).
Proof.
  intros Hm Hh fs fs'. unfold catch. cbv zeta.
  destruct (Hm fs fs') as (Hfs & Hr & Hev), (Hm fs' fs) as (Hfs' & _ & _).
  rewrite Hfs, Hfs', <- Hr.
  destruct (result (m fs)) as [e|a] eqn:Hres; simpl.
  - rewrite <- Hev. destruct (Hh e fs fs') as (-> & -> & ->). done.
  - by rewrite Hfs, Hres.
Qed.

Ltac solve_pure :=
  repeat first
    [ apply pure_ret | apply pure_raise | apply pure_emit
    | apply pure_bind; [|intros ?]
    | apply pure_catch; [|intros ?]
    | match goal with
      | |- pure (if ?b then _ else _) => destruct b
      | |- pure (match ?x with _ => _ end) => destruct x
      end ].

Lemma pure_lift {A} (r : exn + A) : pure (lift r).
Proof. unfold lift. solve_pure. Qed.

Lemma pure_for_each {A S} (xs : list A) (body : S → A → M S) s :
  (∀ s x, pure (body s x)) → pure (for_each xs body s).
Proof.
  intros Hbody. revert s. induction xs as [|x xs IH]; intros s; simpl.
  - apply pure_ret.
  - apply pure_bind; [apply Hbody|apply IH].
Qed.

Section Pure.

Context `{Pillow} `{Host}.

Lemma pure_get_font size : pure (get_font size).
Proof. unfold get_font, try_except, truetype, load_default. solve_pure. Qed.

Lemma pure_Image_new mode size color : pure (Image_new mode size color).
Proof. unfold Image_new. solve_pure. Qed.

Lemma pure_check_box x0 y0 x1 y1 : pure (check_box x0 y0 x1 y1).
Proof. unfold check_box. solve_pure. Qed.

Lemma pure_rectangle img x0 y0 x1 y1 fill : pure (rectangle img x0 y0 x1 y1 fill).
Proof. unfold rectangle, check_box. solve_pure. Qed.

Lemma pure_rounded_rectangle img x0 y0 x1 y1 radius fill outline width :
  pure (rounded_rectangle img x0 y0 x1 y1 radius fill outline width).
Proof. unfold rounded_rectangle, check_box. solve_pure. Qed.

Lemma pure_ellipse img x0 y0 x1 y1 fill : pure (ellipse img x0 y0 x1 y1 fill).
Proof. unfold ellipse, check_box. solve_pure. Qed.

Lemma pure_textbbox xy s font : pure (textbbox xy s font).
Proof. unfold textbbox. solve_pure. Qed.

Lemma pure_text img xy s font fill : pure (text img xy s font fill).
Proof. unfold text. solve_pure. Qed.

Lemma pure_print s : pure (print s).
Proof. apply pure_emit. Qed.

End Pure.

Create HintDb pure_db.
#[export] Hint Resolve pure_ret pure_raise pure_lift pure_get_font pure_Image_new
  pure_check_box pure_rectangle pure_rounded_rectangle pure_ellipse pure_textbbox pure_text
  pure_print : pure_db.

(** ** Running a computation again *)

Lemma bind_run {A B} (m : M A) (k : A → M B) fs a :
  result (m fs) = inr a →
  bind m k fs =
    mkRun (events (m fs) ++ events (k a (final (m fs))))
          (final (k a (final (m fs)))) (result (k a (final (m fs)))).
Proof. unfold bind. cbv zeta. by intros ->. Qed.

Lemma saved_paths_app evs evs' :
  saved_paths (evs ++ evs') = saved_paths evs ++ saved_paths evs'.
Proof. unfold saved_paths. by rewrite saves_app, fmap_app. Qed.

Lemma bitmaps_app evs evs' : bitmaps (evs ++ evs') = bitmaps evs ++ bitmaps evs'.
Proof. unfold bitmaps. by rewrite saves_app, fmap_app. Qed.

Lemma replayable_pure {A} (m : M A) : pure m → replayable m.
Proof.
  intros Hm fs a Hr. destruct (Hm fs fs) as (Hfs & _ & _).
  split; [rewrite Hfs; apply grows_refl|].
  intros fs2 _. destruct (Hm fs2 fs) as (Hfs2 & Hr2 & Hev2).
  rewrite Hr2, Hev2, Hfs2. split_and!; [done..|apply grows_refl].
Qed.

Lemma replayable_bind {A B} (m : M A) (k : A → M B) :
  replayable m → (∀ a, replayable (k a)) → replayable (bind m k).
Proof.
  intros Hm Hk fs b Hr.
  apply bind_inr in Hr as (a & Hr1 & Hr2 & Hev & Hfs).
  destruct (Hm fs a Hr1) as (Hg1 & Hm').
  destruct (Hk a _ b Hr2) as (Hg2 & Hk').
  split; [rewrite Hfs; by eapply grows_trans|].
  intros fs2 Hg. rewrite Hfs in Hg.
  destruct (Hm' fs2) as (Hr1' & Hp1 & Hg1'); [by eapply grows_trans|].
  destruct (Hk' (final (m fs2))) as (Hr2' & Hp2 & Hg2'); [by eapply grows_trans|].
  rewrite (bind_run m k fs2 a Hr1'), Hev. simpl.
  rewrite !saved_paths_app, Hp1, Hp2.
  split_and!; [done..|by eapply grows_trans].
Qed.

Section Replay.

Context `{Pillow} `{Host}.

Lemma replayable_mkdir p : replayable (mkdir p).
Proof.
  intros fs [] Hr. apply mkdir_spec in Hr as (Hev & Hnew & Hdir & Hparent).
  split; [by apply only_new_dirs_grows|].
  intros fs2 Hg. rewrite (mkdir_again p fs2), Hev.
  - split_and!; [done..|apply grows_refl].
  - by eapply grows_is_dir.
  - by eapply grows_has_parent.
Qed.

Lemma replayable_ensure_dirs : replayable ensure_dirs.
Proof.
  unfold ensure_dirs. cbn [for_each].
  repeat (apply replayable_bind; [apply replayable_mkdir|intros ?]).
  apply replayable_pure, pure_ret.
Qed.

Lemma save_run (img : Image) (c : string) (parent : Path) (fs : FS) :
  registered_extension c = true → node fs parent = Some Dir →
  fs !! (c :: parent) ≠ Some Dir →
  encoder_error c img = None →
  save img (c :: parent) fs =
    mkRun [EvSave (c :: parent) img] (<[c :: parent := File img]> fs) (inr tt).
Proof.
  intros Hext Hparent Hout Henc. unfold save. rewrite Hext, Hparent, Henc. simpl.
  by destruct (fs !! (c :: parent)) as [[|?]|].
Qed.

Lemma save_returns img out fs :
  result (save img out fs) = inr tt →
  ∃ c parent, out = c :: parent ∧ registered_extension c = true ∧
              node fs parent = Some Dir ∧ fs !! out ≠ Some Dir ∧
              encoder_error c img = None.
Proof.
  apply (wp_result _ (fun _ _ _ => ∃ c parent, out = c :: parent ∧
    registered_extension c = true ∧ node fs parent = Some Dir ∧ fs !! out ≠ Some Dir ∧
    encoder_error c img = None)).
  apply wp_save. intros c parent -> Hext Hparent Hout Henc. by exists c, parent.
Qed.

Lemma replayable_save img out : replayable (save img out).
Proof.
  intros fs [] Hr.
  apply save_returns in Hr as (c & parent & -> & Hext & Hparent & Hout & Henc).
  rewrite save_run by done. cbn [final events result].
  split; [by apply grows_write|].
  intros fs2 Hg.
  assert (node fs2 parent = Some Dir) as Hparent2.
  { destruct (grows_node _ fs2 parent Dir Hg) as (n' & Hn' & Hkind).
    - rewrite node_insert_ne by apply cons_neq_self. done.
    - by destruct n'. }
  assert (fs2 !! (c :: parent) ≠ Some Dir) as Hout2.
  { destruct (Hg (c :: parent) (File img)) as (n' & -> & Hkind).
    - apply lookup_insert_eq.
    - by destruct n'. }
  rewrite save_run by done. cbn [final events result].
  split_and!; [done..|by apply grows_write].
Qed.

End Replay.

Ltac replay_step :=
  lazymatch goal with
  | |- replayable (bind _ _) => apply replayable_bind; [|intros ?]
  | |- replayable (save _ _) => apply replayable_save
  | |- replayable ensure_dirs => apply replayable_ensure_dirs
  | |- replayable (for_each _ _ _) => apply replayable_pure, pure_for_each; intros
  | |- replayable (match ?x with _ => _ end) => destruct x
  | |- replayable _ => apply replayable_pure; solve [auto with pure_db]
  | |- pure (bind _ _) => apply pure_bind; [|intros ?]
  | |- pure (for_each _ _ _) => apply pure_for_each; intros
  | |- pure (match ?x with _ => _ end) => destruct x
  | |- pure ((match ?x with _ => _ end) _) => destruct x; cbv beta
  | |- pure _ => solve [auto with pure_db]
  end.

Section Replay_script.

Context `{Pillow} `{Host}.

Lemma replayable_create_icon size filename : replayable (create_icon size filename).
Proof. unfold create_icon. repeat replay_step. Qed.

Lemma replayable_create_screenshot idx title subtitle :
  replayable (create_screenshot idx title subtitle).
Proof. unfold create_screenshot. repeat replay_step. Qed.

Lemma replayable_create_promo width height filename title subtitle :
  replayable (create_promo width height filename title subtitle).
Proof. unfold create_promo. repeat replay_step. Qed.

Lemma replayable_main : replayable main.
Proof.
  unfold main.
  repeat lazymatch goal with
    | |- replayable (create_icon _ _) => apply replayable_create_icon
    | |- replayable (create_screenshot _ _ _) => apply replayable_create_screenshot
    | |- replayable (create_promo _ _ _ _ _) => apply replayable_create_promo
    | |- _ => replay_step
    end.
Qed.

(** C7: when a run of [main] has returned, a second run from the file
    tree it left returns too (the directories and files that now exist do
    not make it fail), and both runs write the same paths, in the same
    order: the ten paths of [output_paths], which are built from [ROOT]
    and constants of the script. *)
Theorem main_twice (fs : FS) :
  result (main fs) = inr tt →
  let first := main fs in
  let second := main (final first) in
  result second = inr tt ∧
  saved_paths (events second) = saved_paths (events first) ∧
  saved_paths (events first) = output_paths.
Proof.
  intros Hr. cbv zeta.
  destruct (replayable_main fs tt Hr) as (_ & Hagain).
  destruct (Hagain (final (main fs)) (grows_refl _)) as (Hr2 & Hpaths & _).
  split_and!; [done..|]. by apply main_saved_paths.
Qed.

End Replay_script.

Lemma main_twice_witness :
  result (@main demo_pillow linux_host (final (@main demo_pillow linux_host ∅))) = inr tt ∧
  saved_paths (events (@main demo_pillow linux_host (final (@main demo_pillow linux_host ∅))))
    = saved_paths (events (@main demo_pillow linux_host ∅)) ∧
  saved_paths (events (@main demo_pillow linux_host ∅)) = @output_paths linux_host.
Proof.
  apply (@main_twice demo_pillow linux_host ∅).
  vm_compute. reflexivity.
Defined.

(** ** Two runs with the same fonts *)

Lemma agree_ret {A} (R : A → A → Prop) a1 a2 : R a1 a2 → agree R (ret a1) (ret a2).
Proof. intros HR fs1 fs2. by split. Qed.

Lemma agree_pure {A} (m : M A) : pure m → agree eq m m.
Proof.
  intros Hm fs1 fs2. destruct (Hm fs1 fs2) as (_ & Hr & Hev).
  unfold agree_runs. rewrite <- Hr, <- Hev.
  destruct (result (m fs1)); [by left|done].
Qed.

Lemma agree_bind {A B} (R : A → A → Prop) (R' : B → B → Prop)
    (m1 m2 : M A) (k1 k2 : A → M B) :
  agree R m1 m2 → (∀ a1 a2, R a1 a2 → agree R' (k1 a1) (k2 a2)) →
  agree R' (bind m1 k1) (bind m2 k2).
Proof.
  intros Hm Hk fs1 fs2. specialize (Hm fs1 fs2).
  unfold agree_runs, bind in *. cbv zeta.
  destruct (m1 fs1) as [ev1 f1 [e1|a1]], (m2 fs2) as [ev2 f2 [e2|a2]]; simpl in *.
  - done.
  - destruct (k2 a2 f2) as [ev2' f2' [e2|b2]]; simpl; rewrite bitmaps_app;
      [left|]; by apply prefix_app_r.
  - destruct (k1 a1 f1) as [ev1' f1' [e1|b1]]; simpl; rewrite bitmaps_app;
      [right|]; by apply prefix_app_r.
  - destruct Hm as (HR & Hev). specialize (Hk a1 a2 HR f1 f2).
    destruct (k1 a1 f1) as [ev1' f1' [e1|b1]], (k2 a2 f2) as [ev2' f2' [e2|b2]];
      simpl in *; rewrite !bitmaps_app, Hev.
    + destruct Hk; [left|right]; by apply prefix_app.
    + by apply prefix_app.
    + by apply prefix_app.
    + destruct Hk as (HR' & Hev'). split; [done|]. f_equal. exact Hev'.
Qed.

Lemma mkdir_exist_ok_events `{Host} p fs : events (mkdir_exist_ok p fs) = [].
Proof.
  unfold mkdir_exist_ok, catch. cbv zeta.
  destruct (os_mkdir_cases p fs) as [(-> & _)|(e & -> & _)]; simpl; [done|].
  unfold unless_is_dir. by destruct e, (is_dir fs p).
Qed.

Lemma mkdir_events `{Host} p fs : events (mkdir p fs) = [].
Proof.
  revert fs. induction p as [|c parent IH]; intros fs; [done|].
  cbn [mkdir]. unfold catch. cbv zeta.
  destruct (os_mkdir_cases (c :: parent) fs) as [(-> & _)|(e & -> & _)]; simpl; [done|].
  unfold unless_is_dir.
  destruct e; try by destruct (is_dir fs (c :: parent)).
  unfold bind. cbv zeta.
  destruct (result (mkdir parent fs)); simpl; rewrite IH; [done|].
  by rewrite mkdir_exist_ok_events.
Qed.

Section Agree.

Context `{Pillow} (h1 h2 : Host).

Hypothesis same_fonts : ∀ size fs fs',
  result (@get_font h1 size fs) = result (@get_font h2 size fs').

Lemma get_font_no_saves `{Host} size fs : saves (events (get_font size fs)) = [].
Proof.
  rewrite get_font_run.
  by destruct (font_error primary_font size), (font_error alternate_font size).
Qed.

Lemma agree_get_font size : agree eq (@get_font h1 size) (@get_font h2 size).
Proof.
  intros fs1 fs2. unfold agree_runs, bitmaps.
  rewrite !get_font_no_saves, (same_fonts size fs1 fs2).
  destruct (result (@get_font h2 size fs2)); [by left|done].
Qed.

(** A call of [save] writes its bitmap, or raises and writes nothing. *)
Lemma save_bitmaps `{Host} img out fs :
  (result (save img out fs) = inr tt ∧ bitmaps (events (save img out fs)) = [img]) ∨
  (∃ e, result (save img out fs) = inl e ∧ bitmaps (events (save img out fs)) = []).
Proof.
  unfold save. destruct out as [|c parent]; [right; by eexists|].
  destruct (registered_extension c); simpl; [|right; by eexists].
  destruct (node fs parent) as [[|?]|]; [|right; by eexists..].
  destruct (encoder_error c img);
    destruct (fs !! (c :: parent)) as [[|?]|]; simpl;
    first [by left | right; by eexists].
Qed.

Lemma agree_save `{Host} img p1 p2 : agree (fun _ _ => True) (save img p1) (save img p2).
Proof.
  intros fs1 fs2. unfold agree_runs.
  destruct (save_bitmaps img p1 fs1) as [(-> & ->)|(e1 & -> & ->)],
    (save_bitmaps img p2 fs2) as [(-> & ->)|(e2 & -> & ->)];
    try done; try apply prefix_nil. by left.
Qed.

Lemma agree_mkdir p1 p2 : agree eq (mkdir p1) (mkdir p2).
Proof.
  intros fs1 fs2. unfold agree_runs. rewrite !mkdir_events.
  destruct (result (mkdir p1 fs1)) as [e1|[]], (result (mkdir p2 fs2)) as [e2|[]];
    try done. by left.
Qed.

Lemma agree_ensure_dirs : agree eq (@ensure_dirs h1) (@ensure_dirs h2).
Proof.
  unfold ensure_dirs. cbn [for_each].
  repeat (eapply agree_bind; [apply agree_mkdir|intros [] [] _]).
  by apply agree_ret.
Qed.

End Agree.

Ltac agree_step same_fonts :=
  lazymatch goal with
  | |- agree _ (bind (get_font _) _) (bind (get_font _) _) =>
      eapply agree_bind; [by apply agree_get_font|intros ? ? <-]
  | |- agree _ (bind (save _ _) _) (bind (save _ _) _) =>
      eapply agree_bind; [apply agree_save|intros _ _ _]
  | |- agree _ (bind _ _) (bind _ _) =>
      eapply agree_bind; [apply agree_pure; repeat replay_step|intros ? ? <-]
  | |- agree _ (ret _) (ret _) => by apply agree_ret
  | |- agree _ (match ?x with _ => _ end) (match ?x with _ => _ end) => destruct x
  end.

Section Agree_script.

Context `{Pillow} (h1 h2 : Host).

Hypothesis same_fonts : ∀ size fs fs',
  result (@get_font h1 size fs) = result (@get_font h2 size fs').

Lemma agree_create_icon size filename :
  agree (fun _ _ => True) (@create_icon _ h1 size filename) (@create_icon _ h2 size filename).
Proof. unfold create_icon. repeat agree_step same_fonts. Qed.

Lemma agree_create_screenshot idx title subtitle :
  agree (fun _ _ => True)
    (@create_screenshot _ h1 idx title subtitle) (@create_screenshot _ h2 idx title subtitle).
Proof. unfold create_screenshot. repeat agree_step same_fonts. Qed.

Lemma agree_create_promo width height filename title subtitle :
  agree (fun _ _ => True)
    (@create_promo _ h1 width height filename title subtitle)
    (@create_promo _ h2 width height filename title subtitle).
Proof. unfold create_promo. repeat agree_step same_fonts. Qed.

Lemma agree_main : agree eq (@main _ h1) (@main _ h2).
Proof.
  unfold main.
  eapply agree_bind; [by apply agree_ensure_dirs|intros _ _ _].
  repeat lazymatch goal with
    | |- agree _ (bind (create_icon _ _) _) _ =>
        eapply agree_bind; [by apply agree_create_icon|intros _ _ _]
    | |- agree _ (bind (create_screenshot _ _ _) _) _ =>
        eapply agree_bind; [by apply agree_create_screenshot|intros _ _ _]
    | |- agree _ (bind (create_promo _ _ _ _ _) _) _ =>
        eapply agree_bind; [by apply agree_create_promo|intros _ _ _]
    end.
  apply agree_pure, pure_print.
Qed.

End Agree_script.

(** C8: take two runs of [main], on machines and file trees of any kind,
    in which [get_font] returns the same font for every size.  The
    bitmaps the two runs write are the same, one after the other, for as
    long as both runs go on: the bitmaps of one run are the beginning of
    the bitmaps of the other; and when both runs return, both have
    written the same ten bitmaps.  So the output depends on the machine
    through the fonts alone. *)
Theorem same_fonts_same_bitmaps `{Pillow} (h1 h2 : Host) (fs1 fs2 : FS) :
  (∀ size fs fs', result (@get_font h1 size fs) = result (@get_font h2 size fs')) →
  let written1 := bitmaps (events (@main _ h1 fs1)) in
  let written2 := bitmaps (events (@main _ h2 fs2)) in
  (written1 `prefix_of` written2 ∨ written2 `prefix_of` written1) ∧
  (result (@main _ h1 fs1) = inr tt → result (@main _ h2 fs2) = inr tt →
     written1 = written2 ∧ length written1 = 10%nat).
Proof.
  intros Hfonts. cbv zeta.
  pose proof (agree_main h1 h2 Hfonts fs1 fs2) as Hagree. unfold agree_runs in Hagree.
  split.
  - destruct (result (@main _ h1 fs1)), (result (@main _ h2 fs2)); try tauto.
    destruct Hagree as (_ & ->). by left.
  - intros Hr1 Hr2. rewrite Hr1, Hr2 in Hagree. split; [apply Hagree|].
    apply main_returns in Hr1 as (fs' & imgs & _ & Hsaves & Hsizes & _).
    unfold bitmaps. rewrite Hsaves. apply Forall2_length in Hsizes.
    rewrite snd_zip; [done|]. by rewrite Hsizes.
Qed.

Lemma same_fonts_same_bitmaps_witness :
  let written1 := bitmaps (events (@main demo_pillow linux_host ∅)) in
  let written2 := bitmaps (events (@main demo_pillow container_host checkout)) in
  (written1 `prefix_of` written2 ∨ written2 `prefix_of` written1) ∧
  (result (@main demo_pillow linux_host ∅) = inr tt →
   result (@main demo_pillow container_host checkout) = inr tt →
     written1 = written2 ∧ length written1 = 10%nat).
Proof.
  apply (@same_fonts_same_bitmaps demo_pillow linux_host container_host ∅ checkout).
  intros size fs fs'. reflexivity.
Defined.

(** * Further properties *)

(** ** Quiet computations *)

Lemma quiet_ret {A} (a : A) : quiet (ret a).
Proof. done. Qed.

Lemma quiet_raise {A} (e : exn) : quiet (@raise A e).
Proof. done. Qed.

Lemma quiet_emit ev : saves [ev] = [] → prints [ev] = [] → quiet (emit ev).
Proof. by intros Hs Hp fs. Qed.

Lemma prints_app evs evs' : prints (evs ++ evs') = prints evs ++ prints evs'.
Proof. apply omap_app. Qed.

Lemma quiet_bind {A B} (m : M A) (k : A → M B) :
  quiet m → (∀ a, quiet (k a)) → quiet (bind m k).
Proof.
  intros Hm Hk fs. unfold bind. cbv zeta.
  destruct (Hm fs) as (Hfs & Hs & Hp).
  destruct (result (m fs)) as [e|a]; simpl; [done|].
  destruct (Hk a (final (m fs))) as (Hfs' & Hs' & Hp').
  by rewrite saves_app, prints_app, Hs, Hs', Hp, Hp', Hfs', Hfs.
Qed.

Lemma quiet_catch {A} (m : M A) (h : exn → M A) :
  quiet m → (∀ e, quiet (h e)) → quiet (catch m h).
Proof.
  intros Hm Hh fs. unfold catch. cbv zeta.
  destruct (Hm fs) as (Hfs & Hs & Hp).
  destruct (result (m fs)) as [e|a]; simpl; [|done].
  destruct (Hh e (final (m fs))) as (Hfs' & Hs' & Hp').
  by rewrite saves_app, prints_app, Hs, Hs', Hp, Hp', Hfs', Hfs.
Qed.

Lemma quiet_for_each {A S} (xs : list A) (body : S → A → M S) s :
  (∀ s x, quiet (body s x)) → quiet (for_each xs body s).
Proof.
  intros Hbody. revert s. induction xs as [|x xs IH]; intros s; simpl.
  - apply quiet_ret.
  - apply quiet_bind; [apply Hbody|apply IH].
Qed.

Ltac solve_quiet :=
  repeat first
    [ apply quiet_ret | apply quiet_raise | apply quiet_emit; reflexivity
    | apply quiet_bind; [|intros ?]
    | apply quiet_catch; [|intros ?]
    | match goal with
      | |- quiet (if ?b then _ else _) => destruct b
      | |- quiet (match ?x with _ => _ end) => destruct x
      end ].

Lemma quiet_lift {A} (r : exn + A) : quiet (lift r).
Proof. unfold lift. solve_quiet. Qed.

Section Quiet.

Context `{Pillow} `{Host}.

Lemma quiet_get_font size : quiet (get_font size).
Proof. unfold get_font, try_except, truetype, load_default. solve_quiet. Qed.

Lemma quiet_Image_new mode size color : quiet (Image_new mode size color).
Proof. unfold Image_new. solve_quiet. Qed.

Lemma quiet_rectangle img x0 y0 x1 y1 fill : quiet (rectangle img x0 y0 x1 y1 fill).
Proof. unfold rectangle, check_box. solve_quiet. Qed.

Lemma quiet_rounded_rectangle img x0 y0 x1 y1 radius fill outline width :
  quiet (rounded_rectangle img x0 y0 x1 y1 radius fill outline width).
Proof. unfold rounded_rectangle, check_box. solve_quiet. Qed.

Lemma quiet_ellipse img x0 y0 x1 y1 fill : quiet (ellipse img x0 y0 x1 y1 fill).
Proof. unfold ellipse, check_box. solve_quiet. Qed.

Lemma quiet_textbbox xy s font : quiet (textbbox xy s font).
Proof. unfold textbbox. solve_quiet. Qed.

Lemma quiet_text img xy s font fill : quiet (text img xy s font fill).
Proof. unfold text. solve_quiet. Qed.

End Quiet.

Create HintDb quiet_db.
#[export] Hint Resolve quiet_ret quiet_raise quiet_lift quiet_get_font quiet_Image_new
  quiet_rectangle quiet_rounded_rectangle quiet_ellipse quiet_textbbox quiet_text
  : quiet_db.

Ltac quiet_step :=
  lazymatch goal with
  | |- quiet (bind _ _) => apply quiet_bind; [|intros ?]
  | |- quiet (for_each _ _ _) => apply quiet_for_each; intros
  | |- quiet (match ?x with _ => _ end) => destruct x
  | |- quiet ((match ?x with _ => _ end) _) => destruct x; cbv beta
  | |- quiet _ => solve [auto with quiet_db]
  end.

(** ** File names *)

Lemma string_app_cons (c : ascii) (s t : string) :
  String c s +:+ t = String c (s +:+ t).
Proof. reflexivity. Qed.

Lemma string_app_assoc (s t u : string) : (s +:+ t) +:+ u = s +:+ (t +:+ u).
Proof.
  induction s as [|c s IH]; [done|]. by rewrite !string_app_cons, IH.
Qed.

Lemma string_app_nil_r (s : string) : s +:+ "" = s.
Proof. induction s as [|c s IH]; [done|]. by rewrite string_app_cons, IH. Qed.

Lemma string_app_length (s t : string) :
  String.length (s +:+ t) = (String.length s + String.length t)%nat.
Proof.
  induction s as [|c s IH]; [done|]. rewrite string_app_cons. simpl. by rewrite IH.
Qed.

Lemma string_app_inv_tail (s s' t : string) : s +:+ t = s' +:+ t → s = s'.
Proof.
  revert s'. induction s as [|c s IH]; intros [|c' s'] Heq.
  - done.
  - apply (f_equal String.length) in Heq.
    rewrite !string_app_length in Heq. simpl in Heq. lia.
  - apply (f_equal String.length) in Heq.
    rewrite !string_app_length in Heq. simpl in Heq. lia.
  - rewrite !string_app_cons in Heq. injection Heq as -> Heq. f_equal. by apply IH.
Qed.

Lemma slash_free_app (s t : string) :
  slash_free (s +:+ t) = slash_free s && slash_free t.
Proof.
  induction s as [|c s IH]; [done|]. rewrite string_app_cons. simpl.
  by rewrite IH, andb_assoc.
Qed.

Lemma slash_free_pretty_N_go (x : N) (s : string) :
  slash_free s = true → slash_free (pretty_N_go x s) = true.
Proof.
  revert s. induction (N.lt_wf_0 x) as [x _ IH]; intros s Hs.
  assert (x = 0 ∨ 0 < x)%N as [->|Hx] by lia; [by rewrite pretty_N_go_0|].
  rewrite pretty_N_go_step by done. apply IH; [by apply N.div_lt|].
  simpl. rewrite Hs, andb_true_r. unfold pretty_N_char. by repeat case_match.
Qed.

Lemma slash_free_pretty_N (x : N) : slash_free (pretty x) = true.
Proof.
  unfold pretty, pretty_N. case_decide; [done|]. by apply slash_free_pretty_N_go.
Qed.

Lemma slash_free_pretty_Z (x : Z) : slash_free (pretty x) = true.
Proof.
  destruct x as [|p|p]; [done|apply slash_free_pretty_N|].
  change (pretty (Z.neg p)) with ("-" +:+ pretty (N.pos p)).
  rewrite slash_free_app. by rewrite slash_free_pretty_N.
Qed.

Lemma components_slash_free (s cur : string) (acc : Path) :
  slash_free s = true → components s cur acc = push_component (cur +:+ s) acc.
Proof.
  revert cur. induction s as [|c s IH]; intros cur Hs; simpl in *.
  - by rewrite string_app_nil_r.
  - apply andb_true_iff in Hs as (Hc & Hs).
    destruct (bool_decide (c = "/"%char)); [done|].
    rewrite IH by done. by rewrite string_app_assoc.
Qed.

(** Joining a directory and a plain file name: the name becomes the last
    component. *)
Lemma truediv_plain_name (p : Path) (s : string) :
  slash_free s = true → s ≠ "" → s ≠ "." → p </> s = s :: p.
Proof.
  intros Hs Hne Hdot. unfold truediv.
  assert (components s "" p = s :: p) as Hp.
  { rewrite components_slash_free by done. simpl. unfold push_component.
    rewrite bool_decide_eq_false_2; [done|]. by intros [?|?]. }
  destruct s as [|c s]; [done|].
  destruct (decide (c = "/"%char)) as [->|Hc]; [done|].
  rewrite <- Hp. destruct c as [[] [] [] [] [] [] [] []]; try done.
Qed.

Lemma slash_free_screenshot_name (idx : Z) : slash_free (screenshot_name idx) = true.
Proof.
  unfold screenshot_name. by rewrite !slash_free_app, slash_free_pretty_Z.
Qed.

Lemma screenshot_name_inj (idx idx' : Z) :
  screenshot_name idx = screenshot_name idx' → idx = idx'.
Proof.
  unfold screenshot_name. intros Heq. apply (inj (String.app _)) in Heq.
  apply string_app_inv_tail in Heq. by apply (inj pretty).
Qed.

Lemma substring_app_suffix (s t : string) :
  String.substring (String.length s) (String.length t) (s +:+ t) = t.
Proof.
  induction s as [|c s IH]; [|by rewrite string_app_cons].
  change ("" +:+ t) with t. cbn [String.length].
  induction t as [|c t IH]; [done|]. simpl. by rewrite IH.
Qed.

Lemma suffix_png_app (s : string) : suffix_png (s +:+ ".png") = true.
Proof.
  unfold suffix_png. apply bool_decide_eq_true_2.
  rewrite string_app_length. cbn [String.length].
  replace (String.length s + 4 - 4)%nat with (String.length s) by lia.
  apply (substring_app_suffix s ".png").
Qed.

Lemma suffix_png_screenshot_name (idx : Z) : suffix_png (screenshot_name idx) = true.
Proof.
  unfold screenshot_name. rewrite <- string_app_assoc. apply suffix_png_app.
Qed.

Lemma suffix_png_plain (s : string) : suffix_png s = true → s ≠ "" ∧ s ≠ ".".
Proof. intros Hs. split; by intros ->. Qed.

(** ** The generators write one file, last *)

Lemma writes_one_wpe (m : M Path) :
  (∀ fs, wpe m
     (fun out ws ms fs' =>
        ms = [] ∧ ∃ img, ws = [(out, img)] ∧ fs' = <[out := File img]> fs ∧
                         fs !! out ≠ Some Dir ∧ is_dir fs (tail out) = true)
     (fun _ ws ms fs' => ms = [] ∧ fs' = fs ∧ ws = []) fs) →
  writes_one m.
Proof.
  intros Hm fs. specialize (Hm fs). unfold wpe in Hm.
  destruct (result (m fs)) as [e|out]; [by destruct Hm as (-> & -> & ->)|].
  destruct Hm as (-> & img & -> & -> & Hout & Hdir). split; [done|]. by exists img.
Qed.

(** A step that is quiet is passed over: the outcomes are those of what
    follows. *)
Lemma wpe_bind_quiet {A B} (m : M A) (k : A → M B) Q E fs :
  quiet m → (∀ e, E e [] [] fs) →
  wp m (fun a _ _ => wpe (k a) Q E fs) fs →
  wpe (bind m k) Q E fs.
Proof.
  intros Hm HE Hk. destruct (Hm fs) as (Hfs & Hs & Hp).
  unfold wpe, wp, bind in *. cbv zeta.
  destruct (result (m fs)) as [e|a]; cbn [result events final].
  - rewrite Hfs, Hs, Hp. apply HE.
  - rewrite saves_app, prints_app, Hs, Hp, Hfs. exact Hk.
Qed.

Lemma encoder_error_png `{Pillow} name img :
  suffix_png name = true → im_mode img = "RGB" ∨ im_mode img = "RGBA" →
  0 < im_width img → 0 < im_height img →
  encoder_error name img = None.
Proof.
  intros Hname Hmode Hw Hh. unfold encoder_error.
  rewrite Hname, (bool_decide_eq_true_2 _ Hmode).
  by destruct (Z.ltb_spec 0 (im_width img)), (Z.ltb_spec 0 (im_height img)); try lia.
Qed.

(** The three outcomes of [save]: it raises before it has opened the file,
    and nothing has changed; the encoder raises, and a file that was there
    is left emptied; it returns, and the bitmap is in the file. *)
Lemma wpe_save `{Pillow} img out Q E fs :
  (∀ e, E e [] [] fs) →
  (∀ name parent old e, out = name :: parent → is_dir fs parent = true →
     fs !! out = Some (File old) → encoder_error name img = Some e →
     E e [] [] (<[out := File emptied]> fs)) →
  (∀ name parent, out = name :: parent → registered_extension name = true →
     is_dir fs parent = true → fs !! out ≠ Some Dir →
     encoder_error name img = None →
     Q out [(out, img)] [] (<[out := File img]> fs)) →
  wpe (save img out ;; ret out) Q E fs.
Proof.
  intros HE Hemptied HQ. unfold wpe, bind, save. cbv zeta.
  destruct out as [|name parent]; [apply HE|].
  destruct (registered_extension name) eqn:Hext; cbn [negb]; [|apply HE].
  destruct (node fs parent) as [[|?]|] eqn:Hparent; [|apply HE..].
  assert (is_dir fs parent = true) as Hdir by (unfold is_dir; by rewrite Hparent).
  destruct (fs !! (name :: parent)) as [[|old]|] eqn:Hout; [apply HE|..];
    destruct (encoder_error name img) as [e|] eqn:Henc; cbn.
  - by eapply Hemptied.
  - by eapply HQ.
  - apply HE.
  - by eapply HQ.
Qed.

Ltac wpe_step :=
  lazymatch goal with
  | |- wpe (bind (save _ _) _) _ _ _ => fail "the save is the last step"
  | |- wpe (bind _ _) _ _ _ =>
      apply wpe_bind_quiet; [solve [repeat quiet_step]|assumption|wp_step]
  end; cbv beta iota zeta.

Section Generators_write_one.

Context `{Pillow} `{Host}.

(** The outcomes of [create_icon]: before the file is opened nothing has
    changed; when the encoder refuses the icon, which is not empty and of
    mode RGBA, a file that was at the target is left emptied; otherwise
    the icon is in the file. *)
Lemma wpe_create_icon size filename Q E fs :
  (∀ e, E e [] [] fs) →
  (∀ name parent old img e,
     ASSETS_DIR </> filename = name :: parent →
     0 < size → im_mode img = "RGBA" → im_size img = (size, size) →
     is_dir fs parent = true → fs !! (name :: parent) = Some (File old) →
     encoder_error name img = Some e →
     E e [] [] (<[name :: parent := File emptied]> fs)) →
  (∀ img,
     fs !! (ASSETS_DIR </> filename) ≠ Some Dir →
     is_dir fs (tail (ASSETS_DIR </> filename)) = true →
     Q (ASSETS_DIR </> filename) [(ASSETS_DIR </> filename, img)] []
       (<[ASSETS_DIR </> filename := File img]> fs)) →
  wpe (create_icon size filename) Q E fs.
Proof.
  intros HE Hemptied HQ. unfold create_icon. repeat wpe_step.
  apply wpe_save; [done| |].
  - intros name parent old e Hout Hdir Hold Henc. rewrite Hout in *.
    eapply Hemptied; [done|lia| | |done|done|exact Henc]; reflexivity.
  - intros name parent Hout Hext Hdir Hnodir Henc. apply HQ; [done|].
    by rewrite Hout.
Qed.

Lemma wpe_create_promo width height filename title subtitle Q E fs :
  (∀ e, E e [] [] fs) →
  (∀ name parent old img e,
     STORE_DIR </> filename = name :: parent →
     0 ≤ width → 0 ≤ height → im_mode img = "RGB" → im_size img = (width, height) →
     is_dir fs parent = true → fs !! (name :: parent) = Some (File old) →
     encoder_error name img = Some e →
     E e [] [] (<[name :: parent := File emptied]> fs)) →
  (∀ img,
     fs !! (STORE_DIR </> filename) ≠ Some Dir →
     is_dir fs (tail (STORE_DIR </> filename)) = true →
     Q (STORE_DIR </> filename) [(STORE_DIR </> filename, img)] []
       (<[STORE_DIR </> filename := File img]> fs)) →
  wpe (create_promo width height filename title subtitle) Q E fs.
Proof.
  intros HE Hemptied HQ. unfold create_promo. wpe_step.
  apply wpe_bind_quiet; [solve [repeat quiet_step]|assumption|].
  apply (wp_for_each (fun img : Image =>
           im_mode img = "RGB" ∧ im_size img = (width, height))); [done|..].
  { intros img i (Hmode & Hsize). by repeat wp_step. }
  intros img ev' (Hmode & Hsize) _. cbv beta. repeat wpe_step.
  apply wpe_save; [done| |].
  - intros name parent old e Hout Hdir Hold Henc. rewrite Hout in *.
    eapply Hemptied; [done|done|done| | |done|done|exact Henc];
      [exact Hmode|exact Hsize].
  - intros name parent Hout Hext Hdir Hnodir Henc. apply HQ; [done|].
    by rewrite Hout.
Qed.

Lemma wpe_create_screenshot idx title subtitle Q E fs :
  (∀ e, E e [] [] fs) →
  (∀ img,
     fs !! (screenshot_name idx :: SCREENSHOTS_DIR) ≠ Some Dir →
     is_dir fs SCREENSHOTS_DIR = true →
     Q (screenshot_name idx :: SCREENSHOTS_DIR)
       [(screenshot_name idx :: SCREENSHOTS_DIR, img)] []
       (<[screenshot_name idx :: SCREENSHOTS_DIR := File img]> fs)) →
  wpe (create_screenshot idx title subtitle) Q E fs.
Proof.
  intros HE HQ. unfold create_screenshot. cbv zeta. repeat wpe_step.
  apply wpe_bind_quiet;
    [apply quiet_for_each; intros [img y] i; repeat quiet_step|assumption|].
  apply (wp_for_each (fun st : Image * Z =>
           im_mode st.1 = "RGB" ∧ im_size st.1 = (1280, 800))); [done|..].
  { intros [img y] i (Hmode & Hsize). by repeat wp_step. }
  intros [img y] ev' (Hmode & Hsize) _. cbn [fst] in Hmode, Hsize.
  cbv beta iota. repeat wpe_step.
  fold (screenshot_name idx).
  rewrite (truediv_plain_name SCREENSHOTS_DIR (screenshot_name idx))
    by (try apply slash_free_screenshot_name; done).
  apply wpe_save; [done| |].
  - intros name parent old e [= <- <-] Hdir Hold Henc.
    rewrite encoder_error_png in Henc; [done|apply suffix_png_screenshot_name|..].
    + left. exact Hmode.
    + unfold im_width, draw. cbn [im_size]. by rewrite Hsize.
    + unfold im_height, draw. cbn [im_size]. by rewrite Hsize.
  - intros name parent [= <- <-] Hext Hdir Hnodir Henc. by apply HQ.
Qed.

(** With a plain file name that ends in [.png], [create_icon] writes its
    file or changes nothing. *)
Lemma writes_one_create_icon size filename :
  slash_free filename = true → suffix_png filename = true →
  writes_one (create_icon size filename).
Proof.
  intros Hplain Hpng. apply writes_one_wpe. intros fs.
  destruct (suffix_png_plain _ Hpng) as (Hne & Hdot).
  apply wpe_create_icon; [done| |].
  - intros name parent old img e Hout Hsize Hmode Himg Hdir Hold Henc.
    rewrite truediv_plain_name in Hout by done. injection Hout as <- <-.
    rewrite encoder_error_png in Henc; [done|done|by right|..];
      unfold im_width, im_height; rewrite Himg; simpl; lia.
  - intros img Hout Hdir. split; [done|]. by exists img.
Qed.

(** The same for a promo tile that is not empty. *)
Lemma writes_one_create_promo width height filename title subtitle :
  slash_free filename = true → suffix_png filename = true →
  0 < width → 0 < height →
  writes_one (create_promo width height filename title subtitle).
Proof.
  intros Hplain Hpng Hwidth Hheight. apply writes_one_wpe. intros fs.
  destruct (suffix_png_plain _ Hpng) as (Hne & Hdot).
  apply wpe_create_promo; [done| |].
  - intros name parent old img e Hout _ _ Hmode Himg Hdir Hold Henc.
    rewrite truediv_plain_name in Hout by done. injection Hout as <- <-.
    rewrite encoder_error_png in Henc; [done|done|by left|..];
      unfold im_width, im_height; rewrite Himg; simpl; lia.
  - intros img Hout Hdir. split; [done|]. by exists img.
Qed.

Lemma writes_one_create_screenshot idx title subtitle :
  writes_one (create_screenshot idx title subtitle).
Proof.
  apply writes_one_wpe. intros fs. apply wpe_create_screenshot; [done|].
  intros img Hout Hdir. split; [done|]. by exists img.
Qed.

Lemma create_icon_out size filename fs out :
  result (create_icon size filename fs) = inr out → out = ASSETS_DIR </> filename.
Proof.
  apply (wp_result _ (fun out _ _ => out = ASSETS_DIR </> filename)).
  apply wp_create_icon. done.
Qed.

Lemma create_promo_out width height filename title subtitle fs out :
  result (create_promo width height filename title subtitle fs) = inr out →
  out = STORE_DIR </> filename.
Proof.
  apply (wp_result _ (fun out _ _ => out = STORE_DIR </> filename)).
  apply wp_create_promo. done.
Qed.

Lemma create_screenshot_out idx title subtitle fs out :
  result (create_screenshot idx title subtitle fs) = inr out →
  out = SCREENSHOTS_DIR </> screenshot_name idx.
Proof.
  apply (wp_result _ (fun out _ _ => out = SCREENSHOTS_DIR </> screenshot_name idx)).
  apply wp_create_screenshot. done.
Qed.

(** X5: what a call of [create_icon] does to the file tree.  It prints
    nothing.  When it returns, it returns [ASSETS_DIR / filename] and has
    written one bitmap, there, over nothing or over a file but not over a
    directory, in a directory that existed, and changed nothing else.
    When it raises, it has written no bitmap, and either the file tree is
    as it was, or the encoder has refused the icon after [save] had opened
    an existing file at the target: that file is left emptied and nothing
    else has changed.  The encoder in question is never that of a file
    name ending in [.png]. *)
Theorem create_icon_effect (size : Z) (filename : string) (fs : FS) :
  let r := create_icon size filename fs in
  let target := ASSETS_DIR </> filename in
  prints (events r) = [] ∧
  match result r with
  | inl e =>
      saves (events r) = [] ∧
      (final r = fs ∨
       ∃ name parent img,
         target = name :: parent ∧ suffix_png name = false ∧
         encode_error name img = Some e ∧
         is_file fs target ∧ is_dir fs parent = true ∧
         final r = <[target := File emptied]> fs)
  | inr out =>
      out = target ∧
      ∃ img, saves (events r) = [(out, img)] ∧
             final r = <[out := File img]> fs ∧
             fs !! out ≠ Some Dir ∧
             is_dir fs (tail out) = true
  end.
Proof.
  cbv zeta.
  assert (wpe (create_icon size filename)
    (fun out ws ms fs' =>
       ms = [] ∧ out = ASSETS_DIR </> filename ∧
       ∃ img, ws = [(out, img)] ∧ fs' = <[out := File img]> fs ∧
              fs !! out ≠ Some Dir ∧ is_dir fs (tail out) = true)
    (fun e ws ms fs' =>
       ms = [] ∧ ws = [] ∧
       (fs' = fs ∨
        ∃ name parent img,
          ASSETS_DIR </> filename = name :: parent ∧ suffix_png name = false ∧
          encode_error name img = Some e ∧
          is_file fs (ASSETS_DIR </> filename) ∧ is_dir fs parent = true ∧
          fs' = <[ASSETS_DIR </> filename := File emptied]> fs)) fs) as Hcases.
  { apply wpe_create_icon.
    - intros e. split_and!; [done..|by left].
    - intros name parent old img e Hout Hsize Hmode Himg Hdir Hold Henc.
      split_and!; [done..|]. right. exists name, parent, img.
      destruct (suffix_png name) eqn:Hpng.
      { rewrite encoder_error_png in Henc; [done|done|by right|..];
          unfold im_width, im_height; rewrite Himg; simpl; lia. }
      unfold encoder_error in Henc. rewrite Hpng in Henc. cbn in Henc.
      rewrite Hout. split_and!; [done..|by exists old|done|done].
    - intros img Hout Hdir. split_and!; [done..|]. by exists img. }
  unfold wpe in Hcases.
  destruct (result (create_icon size filename fs)) as [e|out]; exact Hcases.
Qed.

(** X6: what a call of [create_promo] does to the file tree.  It prints
    nothing.  When it returns, it returns [STORE_DIR / filename] and has
    written one bitmap, there, not over a directory, in a directory that
    existed, and changed nothing else.  When it raises, it has written no
    bitmap, and either the file tree is as it was, or the encoder has
    refused the tile after [save] had opened an existing file at the
    target: that file is left emptied and nothing else has changed.  This
    happens only for a file name that does not end in [.png] or for an
    empty tile, of width or height 0. *)
Theorem create_promo_effect (width height : Z)
    (filename title subtitle : string) (fs : FS) :
  let r := create_promo width height filename title subtitle fs in
  let target := STORE_DIR </> filename in
  prints (events r) = [] ∧
  match result r with
  | inl e =>
      saves (events r) = [] ∧
      (final r = fs ∨
       ∃ name parent img,
         target = name :: parent ∧
         (suffix_png name = false ∨ width = 0 ∨ height = 0) ∧
         encode_error name img = Some e ∧
         is_file fs target ∧ is_dir fs parent = true ∧
         final r = <[target := File emptied]> fs)
  | inr out =>
      out = target ∧
      ∃ img, saves (events r) = [(out, img)] ∧
             final r = <[out := File img]> fs ∧
             fs !! out ≠ Some Dir ∧
             is_dir fs (tail out) = true
  end.
Proof.
  cbv zeta.
  assert (wpe (create_promo width height filename title subtitle)
    (fun out ws ms fs' =>
       ms = [] ∧ out = STORE_DIR </> filename ∧
       ∃ img, ws = [(out, img)] ∧ fs' = <[out := File img]> fs ∧
              fs !! out ≠ Some Dir ∧ is_dir fs (tail out) = true)
    (fun e ws ms fs' =>
       ms = [] ∧ ws = [] ∧
       (fs' = fs ∨
        ∃ name parent img,
          STORE_DIR </> filename = name :: parent ∧
          (suffix_png name = false ∨ width = 0 ∨ height = 0) ∧
          encode_error name img = Some e ∧
          is_file fs (STORE_DIR </> filename) ∧ is_dir fs parent = true ∧
          fs' = <[STORE_DIR </> filename := File emptied]> fs)) fs) as Hcases.
  { apply wpe_create_promo.
    - intros e. split_and!; [done..|by left].
    - intros name parent old img e Hout Hwidth Hheight Hmode Himg Hdir Hold Henc.
      split_and!; [done..|]. right. exists name, parent, img.
      assert ((suffix_png name = false ∨ width = 0 ∨ height = 0) ∧
              encode_error name img = Some e) as (Hwhy & Henc').
      { unfold encoder_error, im_width, im_height in Henc. rewrite Himg in Henc.
        cbn [fst snd] in Henc.
        rewrite (bool_decide_eq_true_2 _ (or_introl Hmode)) in Henc.
        destruct (suffix_png name); [|by split; [left|]].
        destruct (Z.ltb_spec 0 width); [|by split; [right; left; lia|]].
        destruct (Z.ltb_spec 0 height); [done|by split; [right; right; lia|]]. }
      rewrite Hout. split_and!; [done..|by exists old|done|done].
    - intros img Hout Hdir. split_and!; [done..|]. by exists img. }
  unfold wpe in Hcases.
  destruct (result (create_promo width height filename title subtitle fs)) as [e|out];
    exact Hcases.
Qed.

(** X7: the same for [create_screenshot]: it raises and has done nothing
    to the file tree, or returns the path of [screenshot-<idx>.png] under
    [SCREENSHOTS_DIR] and has written that one file and nothing else. *)
Theorem create_screenshot_all_or_nothing (idx : Z) (title subtitle : string) (fs : FS) :
  let r := create_screenshot idx title subtitle fs in
  prints (events r) = [] ∧
  match result r with
  | inl _ => final r = fs ∧ saves (events r) = []
  | inr out =>
      out = SCREENSHOTS_DIR </> screenshot_name idx ∧
      ∃ img, saves (events r) = [(out, img)] ∧
             final r = <[out := File img]> fs ∧
             fs !! out ≠ Some Dir ∧
             is_dir fs (tail out) = true
  end.
Proof.
  cbv zeta. destruct (writes_one_create_screenshot idx title subtitle fs) as (Hprints & Hone).
  split; [done|].
  destruct (result (create_screenshot idx title subtitle fs)) as [e|out] eqn:Hr; [done|].
  split; [by eapply create_screenshot_out|done].
Qed.

End Generators_write_one.

(** ** ensure_dirs *)

Section Ensure_dirs.

Context `{Host}.

Lemma mkdir_exist_ok_only_new_dirs p fs :
  only_new_dirs fs (final (mkdir_exist_ok p fs)).
Proof.
  unfold mkdir_exist_ok, catch. cbv zeta.
  destruct (os_mkdir_cases p fs) as [(-> & Hnone & _)|(e & -> & _)]; simpl.
  - by apply only_new_dirs_insert.
  - unfold unless_is_dir. destruct e, (is_dir fs p); apply only_new_dirs_refl.
Qed.

(** Whether it returns or raises, [mkdir] only creates directories where
    there was nothing. *)
Lemma mkdir_only_new_dirs p fs : only_new_dirs fs (final (mkdir p fs)).
Proof.
  revert fs. induction p as [|c parent IH]; intros fs; [apply only_new_dirs_refl|].
  cbn [mkdir]. unfold catch. cbv zeta.
  destruct (os_mkdir_cases (c :: parent) fs) as [(-> & Hnone & _)|(e & -> & _)]; simpl.
  - by apply only_new_dirs_insert.
  - unfold unless_is_dir.
    destruct e; try (destruct (is_dir fs (c :: parent)); apply only_new_dirs_refl).
    unfold bind. cbv zeta.
    destruct (result (mkdir parent fs)); simpl; [apply IH|].
    eapply only_new_dirs_trans; [apply IH|apply mkdir_exist_ok_only_new_dirs].
Qed.

Lemma ensure_dirs_run fs :
  ensure_dirs fs = bind (mkdir ASSETS_DIR) (fun _ => mkdir SCREENSHOTS_DIR) fs.
Proof.
  unfold ensure_dirs. cbn [for_each]. unfold bind. cbv zeta.
  destruct (mkdir ASSETS_DIR fs) as [ev1 fs1 [e1|[]]]; cbn [result events final]; [done|].
  destruct (mkdir SCREENSHOTS_DIR fs1) as [ev2 fs2 [e2|[]]]; cbn [result events final];
    [done|].
  unfold ret. cbn [result events final]. by rewrite app_nil_r.
Qed.

(** X1: when [ensure_dirs] returns, the icons directory and the
    screenshots directory are directories; all it has done is to create
    directories where there was nothing, so every file and every directory
    that was there is as it was; and it has written and printed nothing. *)
Theorem ensure_dirs_creates (fs : FS) :
  result (ensure_dirs fs) = inr tt →
  is_dir (final (ensure_dirs fs)) ASSETS_DIR = true ∧
  is_dir (final (ensure_dirs fs)) SCREENSHOTS_DIR = true ∧
  only_new_dirs fs (final (ensure_dirs fs)) ∧
  events (ensure_dirs fs) = [].
Proof.
  apply (wp_result _ (fun _ ev fs' =>
    is_dir fs' ASSETS_DIR = true ∧ is_dir fs' SCREENSHOTS_DIR = true ∧
    only_new_dirs fs fs' ∧ ev = [])).
  apply wp_ensure_dirs. done.
Qed.

(** X2: [ensure_dirs] is idempotent: called again on the file tree that a
    call which returned has left, it returns and changes nothing. *)
Theorem ensure_dirs_twice (fs : FS) :
  result (ensure_dirs fs) = inr tt →
  ensure_dirs (final (ensure_dirs fs)) = mkRun [] (final (ensure_dirs fs)) (inr tt).
Proof.
  rewrite (ensure_dirs_run fs). intros Hr.
  apply bind_inr in Hr as ([] & Hr1 & Hr2 & _ & Hfs).
  apply mkdir_spec in Hr1 as (_ & _ & Hdir1 & Hparent1).
  apply mkdir_spec in Hr2 as (_ & Hnew2 & Hdir2 & Hparent2).
  rewrite Hfs. set (fs2 := final (mkdir SCREENSHOTS_DIR (final (mkdir ASSETS_DIR fs)))) in *.
  apply only_new_dirs_grows in Hnew2.
  rewrite ensure_dirs_run. unfold bind. cbv zeta.
  assert (is_dir fs2 ASSETS_DIR = true) as Hdir1'
    by (eapply grows_is_dir; eassumption).
  assert (has_parent fs2 ASSETS_DIR) as Hparent1'
    by (eapply grows_has_parent; eassumption).
  rewrite (mkdir_again ASSETS_DIR fs2 Hdir1' Hparent1'). cbn [result events final].
  by rewrite (mkdir_again SCREENSHOTS_DIR fs2 Hdir2 Hparent2).
Qed.

Lemma ensure_dirs_events fs : events (ensure_dirs fs) = [].
Proof.
  rewrite ensure_dirs_run. unfold bind. cbv zeta.
  pose proof (mkdir_events ASSETS_DIR fs) as Hev1.
  destruct (result (mkdir ASSETS_DIR fs)) as [e|[]]; cbn [result events final]; [done|].
  by rewrite Hev1, mkdir_events.
Qed.

Lemma ensure_dirs_only_new_dirs fs : only_new_dirs fs (final (ensure_dirs fs)).
Proof.
  rewrite ensure_dirs_run. unfold bind. cbv zeta.
  pose proof (mkdir_only_new_dirs ASSETS_DIR fs) as Hnew1.
  destruct (result (mkdir ASSETS_DIR fs)) as [e|[]]; cbn [result events final]; [done|].
  eapply only_new_dirs_trans; [exact Hnew1|apply mkdir_only_new_dirs].
Qed.

(** X3: whether it returns or raises, [ensure_dirs] removes nothing and
    overwrites nothing: every path holds what it held before, or a new
    directory where there was nothing; in particular every file is still
    there with its content; and nothing is written or printed. *)
Theorem ensure_dirs_harmless (fs : FS) :
  let r := ensure_dirs fs in
  (∀ p, final r !! p = fs !! p ∨ (fs !! p = None ∧ final r !! p = Some Dir)) ∧
  (∀ p img, fs !! p = Some (File img) → final r !! p = Some (File img)) ∧
  events r = [].
Proof.
  cbv zeta. pose proof (ensure_dirs_only_new_dirs fs) as Hnew.
  split_and!; [exact Hnew| |apply ensure_dirs_events].
  intros p img Hp. destruct (Hnew p) as [->|[Hnone _]]; congruence.
Qed.

(** X4: [exist_ok] excuses a directory, not a file: when the icons
    directory or the screenshots directory exists as a regular file,
    [ensure_dirs] raises. *)
Theorem ensure_dirs_file_in_the_way (fs : FS) :
  is_file fs ASSETS_DIR ∨ is_file fs SCREENSHOTS_DIR →
  ∃ e, result (ensure_dirs fs) = inl e.
Proof.
  intros Hfile. destruct (result (ensure_dirs fs)) as [e|[]] eqn:Hr; [by exists e|].
  pose proof (ensure_dirs_only_new_dirs fs) as Hnew.
  assert (is_dir (final (ensure_dirs fs)) ASSETS_DIR = true ∧
          is_dir (final (ensure_dirs fs)) SCREENSHOTS_DIR = true) as (Hdir1 & Hdir2).
  { revert Hr. apply (wp_result _ (fun _ _ fs' =>
      is_dir fs' ASSETS_DIR = true ∧ is_dir fs' SCREENSHOTS_DIR = true)).
    apply wp_ensure_dirs. done. }
  exfalso. unfold is_dir in Hdir1, Hdir2.
  destruct Hfile as [[img Himg]|[img Himg]];
    [destruct (Hnew ASSETS_DIR) as [Heq|[Hnone _]]
    |destruct (Hnew SCREENSHOTS_DIR) as [Heq|[Hnone _]]];
    try congruence.
  - rewrite ASSETS_DIR_parts in *. simpl in *. rewrite Heq, Himg in Hdir1. done.
  - rewrite SCREENSHOTS_DIR_parts in *. simpl in *. rewrite Heq, Himg in Hdir2. done.
Qed.

End Ensure_dirs.

(** ** What main touches, at most *)

Lemma framed_refl fs evs : framed fs evs fs.
Proof. intros p. right. by left. Qed.

Lemma framed_only_new_dirs fs evs fs' : only_new_dirs fs fs' → framed fs evs fs'.
Proof. intros Hnew p. right. apply Hnew. Qed.

Lemma framed_trans fs1 evs1 fs2 evs2 fs3 :
  framed fs1 evs1 fs2 → framed fs2 evs2 fs3 → framed fs1 (evs1 ++ evs2) fs3.
Proof.
  intros H12 H23 p. rewrite saved_paths_app, elem_of_app.
  destruct (H12 p) as [(Hin1 & Hdir1 & Hfile1)|[Heq1|[Hnone1 Hnew1]]],
    (H23 p) as [(Hin2 & Hdir2 & Hfile2)|[Heq2|[Hnone2 Hnew2]]].
  - left. auto.
  - left. split_and!; [auto|done|]. unfold is_file. by rewrite Heq2.
  - destruct Hfile1 as [img Himg]. congruence.
  - left. split_and!; [auto| |done]. by rewrite <- Heq1.
  - right. left. congruence.
  - right. right. split; congruence.
  - left. split_and!; [auto| |done]. by rewrite Hnone1.
  - right. right. split; congruence.
  - congruence.
Qed.

Lemma footprint_quiet {A} (m : M A) : quiet m → footprint m [] [].
Proof.
  intros Hm fs. destruct (Hm fs) as (Hfs & Hs & Hp).
  unfold saved_paths. rewrite Hfs, Hs, Hp. split; [apply framed_refl|].
  by destruct (result (m fs)).
Qed.

Lemma footprint_bind {A B} (m : M A) (k : A → M B) ps qs ms :
  footprint m ps [] → (∀ a, footprint (k a) qs ms) → footprint (bind m k) (ps ++ qs) ms.
Proof.
  intros Hm Hk fs. unfold bind. cbv zeta.
  destruct (Hm fs) as (Hframe & Hm').
  destruct (result (m fs)) as [e|a]; cbn [result events final].
  - split; [done|]. destruct Hm' as (Hpre & Hp). split; [by apply prefix_app_r|done].
  - destruct Hm' as (Hps & Hp).
    destruct (Hk a (final (m fs))) as (Hframe' & Hk').
    split; [by eapply framed_trans|].
    rewrite saved_paths_app, prints_app, Hps, Hp.
    destruct (result (k a (final (m fs)))) as [e|b].
    + destruct Hk' as (Hpre & ->). split; [by apply prefix_app|done].
    + by destruct Hk' as (-> & ->).
Qed.

Section Footprint.

Context `{Pillow} `{Host}.

Lemma footprint_ensure_dirs : footprint ensure_dirs [] [].
Proof.
  intros fs. rewrite ensure_dirs_events.
  split; [apply framed_only_new_dirs, ensure_dirs_only_new_dirs|].
  by destruct (result (ensure_dirs fs)).
Qed.

Lemma footprint_writes_one (m : M Path) p :
  writes_one m → (∀ fs out, result (m fs) = inr out → out = p) → footprint m [p] [].
Proof.
  intros Hm Hout fs. destruct (Hm fs) as (Hp & Hone). specialize (Hout fs).
  destruct (result (m fs)) as [e|out].
  - destruct Hone as (-> & Hs). unfold saved_paths. rewrite Hs.
    split; [apply framed_refl|]. split; [apply prefix_nil|done].
  - rewrite (Hout out eq_refl) in *. destruct Hone as (img & Hs & -> & Hdir & _).
    unfold framed, saved_paths. rewrite Hs. split; [|done].
    intros q. destruct (decide (p = q)) as [<-|Hne].
    + left. split_and!; [by apply list_elem_of_singleton|done|].
      exists img. apply lookup_insert_eq.
    + right. left. by rewrite lookup_insert_ne.
Qed.

Lemma footprint_create_icon size filename :
  slash_free filename = true → suffix_png filename = true →
  footprint (create_icon size filename) [ASSETS_DIR </> filename] [].
Proof.
  intros Hplain Hpng. apply footprint_writes_one; [by apply writes_one_create_icon|].
  intros fs out. apply create_icon_out.
Qed.

Lemma footprint_create_screenshot idx title subtitle :
  footprint (create_screenshot idx title subtitle)
    [SCREENSHOTS_DIR </> screenshot_name idx] [].
Proof.
  apply footprint_writes_one; [apply writes_one_create_screenshot|].
  intros fs out. apply create_screenshot_out.
Qed.

Lemma footprint_create_promo width height filename title subtitle :
  slash_free filename = true → suffix_png filename = true →
  0 < width → 0 < height →
  footprint (create_promo width height filename title subtitle)
    [STORE_DIR </> filename] [].
Proof.
  intros Hplain Hpng Hwidth Hheight.
  apply footprint_writes_one; [by apply writes_one_create_promo|].
  intros fs out. apply create_promo_out.
Qed.

Lemma footprint_print s : footprint (print s) [] [s].
Proof. intros fs. split; [apply framed_refl|done]. Qed.

Lemma footprint_main : footprint main output_paths [done_message].
Proof.
  unfold main.
  apply (footprint_bind _ _ [] output_paths); [apply footprint_ensure_dirs|intros _].
  unfold output_paths, icon_names, screenshot_names. cbn [fmap list_fmap app].
  repeat lazymatch goal with
    | |- footprint (bind (create_icon ?size ?name) _) (?p :: ?ps) _ =>
        apply (footprint_bind _ _ [p] ps);
          [apply (footprint_create_icon size name eq_refl eq_refl)|intros _]
    | |- footprint (bind (create_screenshot ?idx ?t ?s) _) (?p :: ?ps) _ =>
        apply (footprint_bind _ _ [p] ps);
          [apply (footprint_create_screenshot idx t s)|intros _]
    | |- footprint (bind (create_promo ?w ?h ?name ?t ?s) _) (?p :: ?ps) _ =>
        apply (footprint_bind _ _ [p] ps);
          [apply (footprint_create_promo w h name t s eq_refl eq_refl); lia|intros _]
    end.
  apply footprint_print.
Qed.

End Footprint.

Section Main_footprint.

Context `{Pillow} `{Host}.

Lemma NoDup_output_paths : NoDup output_paths.
Proof.
  apply (NoDup_fmap_1 head).
  unfold output_paths, icon_names, screenshot_names. cbn [fmap list_fmap app head].
  by apply (bool_decide_unpack _).
Qed.

(** X8: whether it returns or raises, [main] writes nowhere but at its ten
    output paths, in their order and as far as it gets; and of every path
    of the file tree one of three things is true: [main] has written it,
    it is an output path that was not a directory and now is a file; or it
    holds what it held before; or it is a directory created where there
    was nothing.  So [main] never removes a file or a directory and never
    replaces a directory. *)
Theorem main_touches_only_outputs (fs : FS) :
  let r := main fs in
  saved_paths (events r) `prefix_of` output_paths ∧
  ∀ p, (p ∈ saved_paths (events r) ∧ p ∈ output_paths ∧
        fs !! p ≠ Some Dir ∧ is_file (final r) p) ∨
       final r !! p = fs !! p ∨
       (fs !! p = None ∧ final r !! p = Some Dir).
Proof.
  cbv zeta. destruct (footprint_main fs) as (Hframed & Hr).
  assert (saved_paths (events (main fs)) `prefix_of` output_paths) as Hprefix.
  { destruct (result (main fs)); [apply Hr|]. by destruct Hr as (-> & _). }
  split; [done|]. intros p.
  destruct (Hframed p) as [(Hin & Hdir & Hfile)|[Heq|Hnew]]; [left|by right; left|by right; right].
  split_and!; try done. destruct Hprefix as [rest ->]. apply elem_of_app. by left.
Qed.

(** X9: whether it returns or raises, [main] writes no path twice: none
    of its outputs overwrites another. *)
Theorem main_writes_each_path_once (fs : FS) :
  NoDup (saved_paths (events (main fs))).
Proof.
  destruct (footprint_main fs) as (_ & Hr).
  assert (saved_paths (events (main fs)) `prefix_of` output_paths) as [rest Hrest].
  { destruct (result (main fs)); [apply Hr|]. by destruct Hr as (-> & _). }
  pose proof NoDup_output_paths as Hnodup. rewrite Hrest in Hnodup.
  by apply NoDup_app in Hnodup as (Hnodup & _).
Qed.

(** X10: [main] prints its completion message when, and only when, it
    returns: once, after all ten files are written; a run that raises has
    printed nothing. *)
Theorem main_prints_when_done (fs : FS) :
  let r := main fs in
  match result r with
  | inr _ => prints (events r) = [done_message] ∧ saved_paths (events r) = output_paths
  | inl _ => prints (events r) = []
  end.
Proof.
  cbv zeta. destruct (footprint_main fs) as (_ & Hr).
  destruct (result (main fs)); [apply Hr|]. by destruct Hr as (-> & ->).
Qed.

Lemma write_all_lookup (ws : list (Path * Image)) (fs : FS) (p : Path) (img : Image) :
  NoDup ws.*1 → (p, img) ∈ ws → write_all ws fs !! p = Some (File img).
Proof.
  revert fs. induction ws as [|w ws IH]; intros fs Hnodup Hin.
  - by apply elem_of_nil in Hin.
  - destruct w as [q img']. rewrite fmap_cons, NoDup_cons in Hnodup.
    destruct Hnodup as (Hw & Hnodup). rewrite write_all_cons. simpl in *.
    apply elem_of_cons in Hin as [[= -> ->]|Hin].
    + rewrite write_all_other by done. apply lookup_insert_eq.
    + by apply IH.
Qed.

(** X11: after a run of [main] that returns, each output file holds a
    bitmap of the size that goes with it: the [i]-th path of
    [output_paths] holds a bitmap of the [i]-th size of [output_sizes]; so
    [icon16.png] is 16 by 16, [icon32.png] 32 by 32, [icon48.png] 48 by 48
    and [icon128.png] 128 by 128. *)
Theorem main_file_sizes (fs : FS) (i : nat) (p : Path) (size : Z * Z) :
  result (main fs) = inr tt →
  output_paths !! i = Some p →
  output_sizes !! i = Some size →
  ∃ img, final (main fs) !! p = Some (File img) ∧ im_size img = size.
Proof.
  intros Hr Hp Hsize.
  apply main_returns in Hr as (fs' & imgs & _ & _ & Hsizes & ->).
  destruct (Forall2_lookup_r _ _ _ _ _ Hsizes Hsize) as (img & Himg & Hsz).
  exists img. split; [|done]. apply write_all_lookup.
  - rewrite fst_zip; [apply NoDup_output_paths|].
    apply Forall2_length in Hsizes. by rewrite Hsizes.
  - apply list_elem_of_lookup. exists i.
    rewrite lookup_zip_with, Hp, Himg. done.
Qed.

End Main_footprint.

Lemma main_file_sizes_witness :
  ∃ img,
    final (@main demo_pillow linux_host ∅)
      !! ["icon48.png"; "icons"; "assets"; "myayai-extension"; "repo"] = Some (File img) ∧
    im_size img = (48, 48).
Proof.
  apply (@main_file_sizes demo_pillow linux_host ∅ 2%nat).
  - vm_compute. reflexivity.
  - reflexivity.
  - reflexivity.
Defined.

(** ** Sizes that Pillow refuses *)

Lemma bind_inl {A B} (m : M A) (k : A → M B) fs e :
  result (m fs) = inl e → bind m k fs = mkRun (events (m fs)) (final (m fs)) (inl e).
Proof. unfold bind. cbv zeta. by intros ->. Qed.

(** X12: [create_icon] refuses a size that is not positive: it raises
    [ValueError] before it loads a font or touches the file tree (a
    negative size is refused by [Image.new], the size 0 by
    [rounded_rectangle], whose box would end at -1). *)
Theorem create_icon_rejects_nonpositive `{Pillow} `{Host}
    (size : Z) (filename : string) (fs : FS) :
  size ≤ 0 → create_icon size filename fs = mkRun [] fs (inl ValueError).
Proof.
  intros Hsize. unfold create_icon.
  destruct (decide (size < 0)) as [Hneg|Hzero].
  - rewrite (bind_inl _ _ fs ValueError); unfold Image_new; cbn [fst snd];
      by destruct (Z.ltb_spec size 0); try lia.
  - assert (size = 0) as -> by lia.
    rewrite (bind_run _ _ fs (mkImage "RGBA" (0, 0) (RGBA 19 27 38 255) [])) by done.
    cbv zeta. cbn [result events final Image_new ret].
    by rewrite (bind_inl _ _ fs ValueError).
Qed.

Lemma create_icon_rejects_nonpositive_witness :
  @create_icon demo_pillow linux_host 0 "icon0.png" checkout
    = mkRun [] checkout (inl ValueError).
Proof.
  apply (@create_icon_rejects_nonpositive demo_pillow linux_host 0 "icon0.png" checkout).
  lia.
Defined.

(** ** The layout of the promo tile and of a screenshot *)

(** A loop whose body, when it returns, computes [f] and writes nothing. *)
Lemma wp_for_each_fold {A S} (f : S → A → S) (xs : list A) (body : S → A → M S) s Q fs :
  (∀ s x, wp (body s x) (fun s' ev fs' => s' = f s x ∧ saves ev = [] ∧ fs' = fs) fs) →
  (∀ ev, saves ev = [] → Q (foldl f s xs) ev fs) →
  wp (for_each xs body s) Q fs.
Proof.
  intros Hbody. revert s Q. induction xs as [|x xs IH]; intros s Q HQ; simpl.
  - apply wp_ret. by apply HQ.
  - apply wp_bind. eapply wp_mono; [apply Hbody|].
    intros s' ev fs' (-> & Hev & ->). cbv beta.
    apply IH. intros ev' Hev'. apply HQ. by rewrite saves_app, Hev, Hev'.
Qed.

Lemma foldl_draw {A} (g : A → DrawOp) (xs : list A) img :
  foldl (fun img x => draw (g x) img) img xs =
    mkImage (im_mode img) (im_size img) (im_color img) (im_ops img ++ (g <$> xs)).
Proof.
  revert img. induction xs as [|x xs IH]; intros img; simpl.
  - rewrite app_nil_r. by destruct img.
  - rewrite IH. simpl. by rewrite <- app_assoc.
Qed.

Lemma elem_of_range i stop :
  i ∈ range 0 stop 6 ↔ 0 ≤ i < stop ∧ i mod 6 = 0.
Proof.
  unfold range. rewrite list_elem_of_In, in_map_iff. setoid_rewrite in_seq.
  pose proof (Z.div_mod (stop - 0 + 6 - 1) 6 ltac:(lia)) as Hdiv.
  pose proof (Z.mod_pos_bound (stop - 0 + 6 - 1) 6 ltac:(lia)) as Hmod.
  split.
  - intros (k & <- & Hk). split; [|rewrite Z.add_0_l, Z.mul_comm; apply Z.mod_mul; lia].
    destruct Hk as (_ & Hk). simpl in Hk.
    destruct (decide (0 ≤ (stop - 0 + 6 - 1) `div` 6)); [|lia].
    apply Nat2Z.inj_lt in Hk. rewrite Z2Nat.id in Hk by done. lia.
  - intros (Hi & Himod). exists (Z.to_nat (i / 6)).
    pose proof (Z.div_mod i 6 ltac:(lia)) as Hidiv. rewrite Himod in Hidiv.
    assert (0 ≤ i / 6) by (apply Z.div_pos; lia).
    rewrite Z2Nat.id by done. split; [lia|]. split; [lia|]. simpl.
    apply Nat2Z.inj_lt. rewrite !Z2Nat.id by lia. nia.
Qed.

Section Layout.

Context `{Pillow} `{Host}.

(** What a call of [create_promo] that returns has drawn and written. *)
Lemma create_promo_returns width height filename title subtitle fs out :
  result (create_promo width height filename title subtitle fs) = inr out →
  ∃ title_font subtitle_font pill_font l t tw th sw pw ph y0 y1,
    (0 ≤ width ∧ 0 ≤ height) ∧
    result (get_font (Z.min (width / 32) 22) fs) = inr pill_font ∧
    text_extent pill_font pill_text = (l, t, pw, ph) ∧
    ((width - pw) / 2 - 16 ≤ (width + pw) / 2 + 16 ∧ y0 ≤ y1) ∧
    final (create_promo width height filename title subtitle fs) !! out =
      Some (File (promo_bitmap width height title subtitle
                    title_font subtitle_font pill_font tw th sw pw ph y0 y1)).
Proof.
  apply (wp_result _ (fun out _ fs' =>
    ∃ title_font subtitle_font pill_font l t tw th sw pw ph y0 y1,
      (0 ≤ width ∧ 0 ≤ height) ∧
      result (get_font (Z.min (width / 32) 22) fs) = inr pill_font ∧
      text_extent pill_font pill_text = (l, t, pw, ph) ∧
      ((width - pw) / 2 - 16 ≤ (width + pw) / 2 + 16 ∧ y0 ≤ y1) ∧
      fs' !! out = Some (File (promo_bitmap width height title subtitle
                      title_font subtitle_font pill_font tw th sw pw ph y0 y1)))).
  unfold create_promo. repeat wp_step.
  apply (wp_for_each_fold (fun img i => draw (stripe width i) img)).
  { intros img i. repeat wp_step. done. }
  intros ev0 Hev0. repeat wp_step. cbn [fst snd] in *. rewrite ?Z.add_0_r in *.
  rewrite foldl_draw. unfold draw. cbn [im_mode im_size im_color im_ops app].
  rewrite <- !app_assoc. cbn [app].
  match goal with
  | Hfont : result (get_font (Z.min (width / 32) 22) fs) = inr ?pill_font,
    Hbox : text_extent ?pill_font _ = (?l, ?t, ?pw, ?ph),
    Hy : ?y0 ≤ ?y1 |- context [RoundedRectangle _ ?y0 _ ?y1] =>
      eexists _, _, pill_font, l, t, _, _, _, pw, ph, y0, y1
  end.
  split_and!; [done..|]. rewrite lookup_insert_eq. reflexivity.
Qed.

(** X13: in the promo tile that [create_promo] saves, the stripes are the
    rectangles, one at every row [y0] below [height] that is a multiple of
    6, from the left edge to [x = width], three rows further down, in the
    colour [(s, s + 2, s + 5)] with [s = 24 + y0 % 48]; the shade comes
    back every 48 rows, and its three channels stay between 24 and 71. *)
Theorem create_promo_stripes (width height : Z) (filename title subtitle : string)
    (fs : FS) (out : Path) :
  result (create_promo width height filename title subtitle fs) = inr out →
  ∃ img,
    final (create_promo width height filename title subtitle fs) !! out = Some (File img) ∧
    (∀ x0 y0 x1 y1 fill,
       Rectangle x0 y0 x1 y1 fill ∈ im_ops img ↔
       (0 ≤ y0 < height ∧ y0 mod 6 = 0) ∧ x0 = 0 ∧ x1 = width ∧ y1 = y0 + 3 ∧
       fill = RGB (24 + y0 mod 48) (24 + y0 mod 48 + 2) (24 + y0 mod 48 + 5)) ∧
    (∀ x0 y0 x1 y1 r g b,
       Rectangle x0 y0 x1 y1 (RGB r g b) ∈ im_ops img →
       24 ≤ r ≤ 66 ∧ g = r + 2 ∧ b = r + 5 ∧ b ≤ 71).
Proof.
  intros Hr.
  apply create_promo_returns in Hr
    as (f1 & f2 & f3 & l & t & tw & th & sw & pw & ph & y0' & y1' & _ & _ & _ & _ & Hout).
  eexists. split; [exact Hout|].
  assert (∀ x0 y0 x1 y1 fill,
    Rectangle x0 y0 x1 y1 fill ∈
      im_ops (promo_bitmap width height title subtitle f1 f2 f3 tw th sw pw ph y0' y1') ↔
    (0 ≤ y0 < height ∧ y0 mod 6 = 0) ∧ x0 = 0 ∧ x1 = width ∧ y1 = y0 + 3 ∧
    fill = RGB (24 + y0 mod 48) (24 + y0 mod 48 + 2) (24 + y0 mod 48 + 5)) as Hstripes.
  { intros x0 y0 x1 y1 fill. cbn [promo_bitmap im_ops].
    rewrite elem_of_app, list_elem_of_fmap, !elem_of_cons, elem_of_nil. split.
    - intros [(i & [= -> -> -> -> ->] & Hi)|Hrest]; [|by intuition discriminate].
      apply elem_of_range in Hi. done.
    - intros (Hy0 & -> & -> & -> & ->). left. exists y0.
      split; [done|]. by apply elem_of_range. }
  split; [exact Hstripes|].
  intros x0 y0 x1 y1 r g b Hin. apply Hstripes in Hin as ((Hy0 & Hmod) & _ & _ & _ & [= -> -> ->]).
  pose proof (Z.div_mod y0 48 ltac:(lia)).
  pose proof (Z.mod_pos_bound y0 48 ltac:(lia)).
  pose proof (Z.div_mod y0 6 ltac:(lia)).
  lia.
Qed.

(** X14: the box of the tagline in the promo tile is [pw + 32] pixels
    wide, 16 more than the tagline on either side, whatever the width of
    the tile and of the text ([pw] is the right edge of the tagline as
    Pillow measures it from the origin), and it is centred in the tile:
    its left and right edges add up to [width], or to [width - 1] when
    [width - pw] is odd.  The box and the tagline are the last two things
    drawn, the tagline in the font of size [min(width // 32, 22)]. *)
Theorem create_promo_pill (width height : Z) (filename title subtitle : string)
    (fs : FS) (out : Path) :
  result (create_promo width height filename title subtitle fs) = inr out →
  ∃ img front x0 y0 x1 y1 px py pill_font l t pw ph,
    final (create_promo width height filename title subtitle fs) !! out = Some (File img) ∧
    im_ops img = front ++ [RoundedRectangle x0 y0 x1 y1 18 (RGB 0 145 255) None 1;
                           Text px py pill_text pill_font (RGB 0 0 0)] ∧
    result (get_font (Z.min (width / 32) 22) fs) = inr pill_font ∧
    text_extent pill_font pill_text = (l, t, pw, ph) ∧
    x1 - x0 = pw + 2 * 16 ∧
    width - 1 ≤ x0 + x1 ≤ width ∧
    y0 ≤ y1.
Proof.
  intros Hr.
  apply create_promo_returns in Hr
    as (f1 & f2 & f3 & l & t & tw & th & sw & pw & ph & y0 & y1 & _ & Hfont & Hbox
        & (Hx & Hy) & Hout).
  eexists _, (_ ++ [_; _]), _, _, _, _, _, _, _, _, _, _, _.
  split; [exact Hout|]. split.
  { cbn [promo_bitmap im_ops]. rewrite <- app_assoc. reflexivity. }
  split; [exact Hfont|]. split; [exact Hbox|].
  pose proof (Z.div_mod (width - pw) 2 ltac:(lia)).
  pose proof (Z.mod_pos_bound (width - pw) 2 ltac:(lia)).
  pose proof (Z.div_mod (width + pw) 2 ltac:(lia)).
  pose proof (Z.mod_pos_bound (width + pw) 2 ltac:(lia)).
  split_and!; [lia..|done].
Qed.

(** What a call of [create_screenshot] that returns has drawn and
    written. *)
Lemma create_screenshot_returns idx title subtitle fs out :
  result (create_screenshot idx title subtitle fs) = inr out →
  ∃ title_font subtitle_font foot_font,
    result (get_font 52 fs) = inr title_font ∧
    result (get_font 28 fs) = inr subtitle_font ∧
    result (get_font 18 fs) = inr foot_font ∧
    saves (events (create_screenshot idx title subtitle fs)) =
      [(out, screenshot_bitmap title subtitle title_font subtitle_font foot_font)].
Proof.
  apply (wp_result _ (fun out ev _ =>
    ∃ title_font subtitle_font foot_font,
      result (get_font 52 fs) = inr title_font ∧
      result (get_font 28 fs) = inr subtitle_font ∧
      result (get_font 18 fs) = inr foot_font ∧
      saves ev =
        [(out, screenshot_bitmap title subtitle title_font subtitle_font foot_font)])).
  unfold create_screenshot. repeat wp_step.
  apply (wp_for_each_fold (fun (st : Image * Z) (_ : Z) =>
    (draw (RoundedRectangle 48 st.2 (1280 - 48) (st.2 + 140) 16
             (RGB 22 30 48) (Some (RGB 70 90 130)) 2) st.1, st.2 + 160))).
  { intros [img y] i. repeat wp_step. done. }
  intros evl Hevl. change (range 0 3 1) with [0; 1; 2]. cbn [foldl fst snd].
  repeat wp_step.
  match goal with
  | H52 : result (get_font 52 fs) = inr ?f1,
    H28 : result (get_font 28 fs) = inr ?f2,
    H18 : result (get_font 18 fs) = inr ?f3 |- _ => exists f1, f2, f3
  end.
  split_and!; [done..|].
  rewrite !saves_app.
  repeat match goal with Hev : saves _ = [] |- _ => rewrite Hev; clear Hev end.
  reflexivity.
Qed.

(** X15: the bitmap that [create_screenshot] saves is the fixed layout of
    [screenshot_bitmap]: the header bar, the title at (48, 28) and the
    subtitle at (48, 120), three blocks 140 rows high at rows 180, 340 and
    500, and the footer at (48, 760), with the title, the subtitle and the
    footer in the fonts that [get_font] returns for 52, 28 and 18.  The
    index is in the file name alone: two calls with the same title and
    subtitle that return have written the same bitmap, whatever their
    indices and file trees. *)
Theorem create_screenshot_layout (idx idx' : Z) (title subtitle : string)
    (fs fs' : FS) (out out' : Path) :
  result (create_screenshot idx title subtitle fs) = inr out →
  result (create_screenshot idx' title subtitle fs') = inr out' →
  ∃ title_font subtitle_font foot_font,
    result (get_font 52 fs) = inr title_font ∧
    result (get_font 28 fs) = inr subtitle_font ∧
    result (get_font 18 fs) = inr foot_font ∧
    bitmaps (events (create_screenshot idx title subtitle fs)) =
      [screenshot_bitmap title subtitle title_font subtitle_font foot_font] ∧
    bitmaps (events (create_screenshot idx' title subtitle fs')) =
      bitmaps (events (create_screenshot idx title subtitle fs)).
Proof.
  intros Hr Hr'.
  apply create_screenshot_returns in Hr as (f1 & f2 & f3 & H1' & H2' & H3' & Hs).
  apply create_screenshot_returns in Hr' as (g1 & g2 & g3 & G1 & G2 & G3 & Hs').
  exists f1, f2, f3. unfold bitmaps. rewrite Hs, Hs'. split_and!; [done..|].
  destruct (pure_get_font 52 fs fs') as (_ & E1 & _).
  destruct (pure_get_font 28 fs fs') as (_ & E2 & _).
  destruct (pure_get_font 18 fs fs') as (_ & E3 & _).
  simpl. repeat f_equal; congruence.
Qed.

End Layout.

(** ** The paths of the screenshots *)

Section Screenshot_paths.

Context `{Pillow} `{Host}.

Lemma screenshot_path (idx : Z) :
  SCREENSHOTS_DIR </> screenshot_name idx = screenshot_name idx :: SCREENSHOTS_DIR.
Proof.
  apply truediv_plain_name; [apply slash_free_screenshot_name|done..].
Qed.

(** X16: the screenshot numbered [idx] is written directly in the
    screenshots directory, under the name [screenshot-<idx>.png], and
    screenshots with different numbers are written to different files:
    none overwrites another. *)
Theorem create_screenshot_paths (idx idx' : Z) (title subtitle title' subtitle' : string)
    (fs fs' : FS) (out out' : Path) :
  result (create_screenshot idx title subtitle fs) = inr out →
  result (create_screenshot idx' title' subtitle' fs') = inr out' →
  out = screenshot_name idx :: SCREENSHOTS_DIR ∧
  (idx ≠ idx' → out ≠ out').
Proof.
  intros Hr Hr'. apply create_screenshot_out in Hr, Hr'. rewrite screenshot_path in Hr, Hr'.
  split; [done|]. intros Hne Heq. subst.
  apply Hne, screenshot_name_inj. congruence.
Qed.

End Screenshot_paths.

(** ** When the generators return *)

Lemma outcome_bind_quiet {A B} (m : M A) (k : A → M B) fs a :
  quiet m → result (m fs) = inr a → outcome (bind m k fs) = outcome (k a fs).
Proof.
  intros Hm Hr. destruct (Hm fs) as (Hfs & Hsaves & Hprints).
  rewrite (bind_run _ _ _ _ Hr). unfold outcome. cbn [result final events].
  by rewrite saves_app, prints_app, Hsaves, Hprints, Hfs.
Qed.

Lemma outcome_eq {A} (r : Run A) res fs' ws ms :
  outcome r = (res, fs', ws, ms) →
  result r = res ∧ final r = fs' ∧ saves (events r) = ws ∧ prints (events r) = ms.
Proof. unfold outcome. by intros [= -> -> -> ->]. Qed.

Section Returns.

Context `{Pillow} `{Host}.

Lemma Image_new_returns mode w h color fs :
  0 ≤ w ≤ INT_MAX → 0 ≤ h ≤ INT_MAX →
  result (Image_new mode (w, h) color fs) = inr (mkImage mode (w, h) color []).
Proof.
  intros Hw Hh. unfold Image_new. cbn [fst snd].
  by destruct (Z.ltb_spec w 0), (Z.ltb_spec h 0),
    (Z.ltb_spec INT_MAX w), (Z.ltb_spec INT_MAX h); try lia.
Qed.

Lemma check_box_returns x0 y0 x1 y1 fs :
  x0 ≤ x1 → y0 ≤ y1 → check_box x0 y0 x1 y1 fs = mkRun [] fs (inr tt).
Proof.
  intros Hx Hy. unfold check_box.
  by destruct (Z.ltb_spec x1 x0), (Z.ltb_spec y1 y0); try lia.
Qed.


Lemma rounded_rectangle_returns img x0 y0 x1 y1 radius fill outline width fs :
  x0 ≤ x1 → y0 ≤ y1 →
  result (rounded_rectangle img x0 y0 x1 y1 radius fill outline width fs) =
    inr (draw (RoundedRectangle x0 y0 x1 y1 radius fill outline width) img).
Proof.
  intros Hx Hy. unfold rounded_rectangle, bind. cbv zeta. by rewrite check_box_returns.
Qed.

Lemma ellipse_returns img x0 y0 x1 y1 fill fs :
  x0 ≤ x1 → y0 ≤ y1 →
  result (ellipse img x0 y0 x1 y1 fill fs) = inr (draw (Ellipse x0 y0 x1 y1 fill) img).
Proof.
  intros Hx Hy. unfold ellipse, bind. cbv zeta. by rewrite check_box_returns.
Qed.

Lemma textbbox_returns s font l t r b fs :
  bbox_error font s = None → text_extent font s = (l, t, r, b) →
  result (textbbox (0, 0) s font fs) = inr (l, t, r, b).
Proof.
  intros He Hbox. unfold textbbox. rewrite He, Hbox. cbn [fst snd ret result].
  by rewrite !Z.add_0_r.
Qed.

Lemma text_returns img xy s font fill fs :
  text_error font s = None →
  result (text img xy s font fill fs) = inr (draw (Text (fst xy) (snd xy) s font fill) img).
Proof. intros He. unfold text. by rewrite He. Qed.

Lemma outcome_save img c parent fs :
  registered_extension c = true → is_dir fs parent = true →
  fs !! (c :: parent) ≠ Some Dir →
  encoder_error c img = None →
  outcome ((save img (c :: parent) ;; ret (c :: parent)) fs) =
    (inr (c :: parent), <[c :: parent := File img]> fs, [(c :: parent, img)], []).
Proof.
  intros Hext Hdir Hout Henc. unfold bind. cbv zeta.
  rewrite save_run; [done..| |done|done].
  unfold is_dir in Hdir. by destruct (node fs parent) as [[|?]|].
Qed.

End Returns.

Ltac run_step :=
  etrans; [apply outcome_bind_quiet; [solve [auto with quiet_db]|]|cbv beta iota zeta].

Section Succeeds.

Context `{Pillow} `{Host}.

(** X17: [create_icon] returns for every size from 1 to 4096 (a bitmap
    of at most 64 MiB, taken to fit in memory) whenever Pillow can measure
    and draw the monogram in the font that [get_font] gives for a third of
    the size, the file name is a name that a file can bear, ends in [.png]
    and has a registered extension, the icons directory is there and the
    file name is not taken by a directory.  It returns the path of the
    file in the icons directory, having written there the icon with the
    monogram centred on the middle of the bitmap, and nothing else. *)
Theorem create_icon_succeeds (size : Z) (filename : string) (fs : FS)
    (font : Font) (l t tw th : Z) :
  0 < size ≤ 4096 →
  file_name filename = true →
  suffix_png filename = true →
  registered_extension filename = true →
  result (get_font (size / 3) fs) = inr font →
  bbox_error font "A" = None →
  text_extent font "A" = (l, t, tw, th) →
  text_error font "A" = None →
  is_dir fs ASSETS_DIR = true →
  fs !! (filename :: ASSETS_DIR) ≠ Some Dir →
  let r := create_icon size filename fs in
  let img := icon_bitmap size
               (Float (float_of_int (size / 2) - float_of_int tw / 2)%float)
               (Float (float_of_int (size / 2) - float_of_int th / 2)%float) font in
  result r = inr (filename :: ASSETS_DIR) ∧
  final r = <[filename :: ASSETS_DIR := File img]> fs ∧
  saves (events r) = [(filename :: ASSETS_DIR, img)] ∧
  prints (events r) = [].
Proof.
  intros Hsize Hname Hpng Hext Hfont Hbbox Hextent Htext Hdir Hout. cbv zeta.
  unfold file_name in Hname. apply andb_true_iff in Hname as (Hname & _).
  apply andb_true_iff in Hname as (Hplain & _).
  destruct (suffix_png_plain _ Hpng) as (Hne & Hdot).
  apply outcome_eq.
  pose proof (Z.div_pos size 3 ltac:(lia) ltac:(lia)).
  unfold create_icon.
  run_step; [apply Image_new_returns; unfold INT_MAX; lia|].
  run_step; [apply rounded_rectangle_returns; lia|].
  run_step; [apply ellipse_returns; lia|].
  run_step; [exact Hfont|].
  run_step; [by apply textbbox_returns|].
  run_step; [by apply text_returns|].
  rewrite truediv_plain_name by done.
  apply outcome_save; [done..|].
  apply encoder_error_png; [done|by right|..];
    unfold im_width, im_height, icon_bitmap; cbn [im_size fst snd]; lia.
Qed.


End Succeeds.

(** ** When ensure_dirs returns *)

Section Mkdir_returns.

Context `{Host}.

Lemma mkdir_exist_ok_returns c parent fs :
  is_dir fs parent = true → ¬ is_file fs (c :: parent) →
  result (mkdir_exist_ok (c :: parent) fs) = inr tt.
Proof.
  intros Hdir Hfile. unfold mkdir_exist_ok, catch, os_mkdir. cbv zeta.
  unfold is_dir in Hdir. destruct (node fs parent) as [[|?]|]; [|done..].
  destruct (fs !! (c :: parent)) as [[|img]|] eqn:Hp; cbn [raise result events final].
  - unfold unless_is_dir, is_dir. cbn [node]. by rewrite Hp.
  - destruct Hfile. by exists img.
  - done.
Qed.

(** [mkdir] returns when neither the path nor a directory above it is a
    regular file. *)
Lemma mkdir_returns p fs :
  (∀ q, q `suffix_of` p → ¬ is_file fs q) → result (mkdir p fs) = inr tt.
Proof.
  revert fs. induction p as [|c parent IH]; intros fs Hfiles; [done|].
  assert (∀ q, q `suffix_of` parent → ¬ is_file fs q) as Hfiles'.
  { intros q Hq. by apply Hfiles, suffix_cons_r. }
  cbn [mkdir]. unfold catch, os_mkdir. cbv zeta.
  destruct (node fs parent) as [[|img]|] eqn:Hparent.
  - destruct (fs !! (c :: parent)) as [[|img]|] eqn:Hp; cbn [raise result events final].
    + unfold unless_is_dir, is_dir. cbn [node]. by rewrite Hp.
    + destruct (Hfiles (c :: parent)); [done|by exists img].
    + done.
  - destruct parent as [|c' parent']; [done|].
    destruct (Hfiles' (c' :: parent')); [done|by exists img].
  - cbn [raise result events final].
    pose proof (IH fs Hfiles') as Hr. rewrite (bind_run _ _ _ _ Hr). cbn [result].
    apply mkdir_spec in Hr as (_ & Hnew & Hdir & _).
    apply mkdir_exist_ok_returns; [done|].
    rewrite (only_new_dirs_is_file fs) by done. by apply Hfiles.
Qed.

(** X19: [ensure_dirs] returns whenever neither of the two directories,
    nor any directory above them, exists as a regular file; whatever else
    is missing it creates. *)
Theorem ensure_dirs_returns (fs : FS) :
  (∀ q, q `suffix_of` ASSETS_DIR ∨ q `suffix_of` SCREENSHOTS_DIR → ¬ is_file fs q) →
  result (ensure_dirs fs) = inr tt.
Proof.
  intros Hfiles. rewrite ensure_dirs_run.
  assert (result (mkdir ASSETS_DIR fs) = inr tt) as Hr.
  { apply mkdir_returns. intros q Hq. apply Hfiles. by left. }
  rewrite (bind_run _ _ _ _ Hr). cbn [result].
  apply mkdir_spec in Hr as (_ & Hnew & _ & _).
  apply mkdir_returns. intros q Hq.
  rewrite (only_new_dirs_is_file fs) by done. apply Hfiles. by right.
Qed.

End Mkdir_returns.

Lemma ensure_dirs_returns_witness : result (@ensure_dirs linux_host ∅) = inr tt.
Proof.
  apply (@ensure_dirs_returns linux_host ∅).
  intros q _ [img Himg]. rewrite lookup_empty in Himg. discriminate.
Defined.

(** ** A directory in the way of an output *)

Section Main_refuses.

Context `{Pillow} `{Host}.

(** X20: [main] never replaces a directory by a file: when one of its ten
    output paths is a directory, [main] raises, and the directory is still
    there. *)
Theorem main_refuses_directory (fs : FS) (p : Path) :
  p ∈ output_paths → fs !! p = Some Dir →
  (∃ e, result (main fs) = inl e) ∧ final (main fs) !! p = Some Dir.
Proof.
  intros Hp Hdir. destruct (footprint_main fs) as (Hframed & _).
  assert (final (main fs) !! p = Some Dir) as Hfinal.
  { destruct (Hframed p) as [(_ & Hne & _)|[Heq|[Hnone _]]]; congruence. }
  split; [|done].
  destruct (result (main fs)) as [e|[]] eqn:Hr; [by exists e|].
  assert (is_file (final (main fs)) p) as [img Himg].
  { apply main_is_file; [done|by left]. }
  congruence.
Qed.

End Main_refuses.

(** ** The whole promo tile *)

Section Promo_layout.

Context `{Pillow} `{Host}.

(** X21: what [create_promo] saves when it returns: on the background
    (17, 24, 39) the stripes, then the title in white in the font of size
    [min(width // 12, 64)], the subtitle in the font of size
    [min(width // 24, 32)], the box of the tagline and, on top of it, the
    tagline in black in the font of size [min(width // 32, 22)].  The
    title and the subtitle are centred on their widths as Pillow measures
    them; the box spans the rows [int(height * 0.70 -/+ (ph / 2 + 10))]
    around the tagline of height [ph]. *)
Theorem create_promo_layout (width height : Z) (filename title subtitle : string)
    (fs : FS) (out : Path) :
  result (create_promo width height filename title subtitle fs) = inr out →
  ∃ title_font subtitle_font pill_font l1 t1 tw th l2 t2 sw sh l3 t3 pw ph y0 y1,
    final (create_promo width height filename title subtitle fs) !! out =
      Some (File (promo_bitmap width height title subtitle
                    title_font subtitle_font pill_font tw th sw pw ph y0 y1)) ∧
    result (get_font (Z.min (width / 12) 64) fs) = inr title_font ∧
    result (get_font (Z.min (width / 24) 32) fs) = inr subtitle_font ∧
    result (get_font (Z.min (width / 32) 22) fs) = inr pill_font ∧
    text_extent title_font title = (l1, t1, tw, th) ∧
    text_extent subtitle_font subtitle = (l2, t2, sw, sh) ∧
    text_extent pill_font pill_text = (l3, t3, pw, ph) ∧
    int_of_float (float_of_int height * 0.70 - float_of_int ph / 2 - 10)%float = inr y0 ∧
    int_of_float (float_of_int height * 0.70 + float_of_int ph / 2 + 10)%float = inr y1.
Proof.
  apply (wp_result _ (fun out _ fs' =>
    ∃ title_font subtitle_font pill_font l1 t1 tw th l2 t2 sw sh l3 t3 pw ph y0 y1,
      fs' !! out =
        Some (File (promo_bitmap width height title subtitle
                      title_font subtitle_font pill_font tw th sw pw ph y0 y1)) ∧
      result (get_font (Z.min (width / 12) 64) fs) = inr title_font ∧
      result (get_font (Z.min (width / 24) 32) fs) = inr subtitle_font ∧
      result (get_font (Z.min (width / 32) 22) fs) = inr pill_font ∧
      text_extent title_font title = (l1, t1, tw, th) ∧
      text_extent subtitle_font subtitle = (l2, t2, sw, sh) ∧
      text_extent pill_font pill_text = (l3, t3, pw, ph) ∧
      int_of_float (float_of_int height * 0.70 - float_of_int ph / 2 - 10)%float = inr y0 ∧
      int_of_float (float_of_int height * 0.70 + float_of_int ph / 2 + 10)%float = inr y1)).
  unfold create_promo. repeat wp_step.
  apply (wp_for_each_fold (fun img i => draw (stripe width i) img)).
  { intros img i. repeat wp_step. done. }
  intros evl Hevl. repeat wp_step. cbn [fst snd] in *. rewrite ?Z.add_0_r in *.
  rewrite foldl_draw. unfold draw. cbn [im_mode im_size im_color im_ops app].
  rewrite <- !app_assoc. cbn [app].
  do 17 eexists. split.
  { rewrite lookup_insert_eq. reflexivity. }
  split_and!; eassumption.
Qed.

End Promo_layout.

(** ** The properties on a Linux checkout *)

Lemma ensure_dirs_creates_witness :
  is_dir (final (@ensure_dirs linux_host ∅)) (@ASSETS_DIR linux_host) = true ∧
  is_dir (final (@ensure_dirs linux_host ∅)) (@SCREENSHOTS_DIR linux_host) = true ∧
  only_new_dirs ∅ (final (@ensure_dirs linux_host ∅)) ∧
  events (@ensure_dirs linux_host ∅) = [].
Proof.
  apply (@ensure_dirs_creates linux_host ∅).
  vm_compute. reflexivity.
Defined.

Lemma ensure_dirs_twice_witness :
  @ensure_dirs linux_host (final (@ensure_dirs linux_host ∅)) =
    mkRun [] (final (@ensure_dirs linux_host ∅)) (inr tt).
Proof.
  apply (@ensure_dirs_twice linux_host ∅).
  vm_compute. reflexivity.
Defined.

Lemma ensure_dirs_file_in_the_way_witness :
  ∃ e, result (@ensure_dirs linux_host
                 {[ ["icons"; "assets"; "myayai-extension"; "repo"] := File logo ]}) = inl e.
Proof.
  apply (@ensure_dirs_file_in_the_way linux_host).
  left. exists logo. vm_compute. reflexivity.
Defined.

Lemma create_promo_stripes_witness :
  ∃ img,
    final (@create_promo demo_pillow linux_host 440 280 "promo-440x280.png"
             "MyAyAI" "AI Prompt Optimizer" checkout)
      !! ["promo-440x280.png"; "store-assets"; "repo"] = Some (File img) ∧
    (∀ x0 y0 x1 y1 fill,
       Rectangle x0 y0 x1 y1 fill ∈ im_ops img ↔
       (0 ≤ y0 < 280 ∧ y0 mod 6 = 0) ∧ x0 = 0 ∧ x1 = 440 ∧ y1 = y0 + 3 ∧
       fill = RGB (24 + y0 mod 48) (24 + y0 mod 48 + 2) (24 + y0 mod 48 + 5)) ∧
    (∀ x0 y0 x1 y1 r g b,
       Rectangle x0 y0 x1 y1 (RGB r g b) ∈ im_ops img →
       24 ≤ r ≤ 66 ∧ g = r + 2 ∧ b = r + 5 ∧ b ≤ 71).
Proof.
  apply (@create_promo_stripes demo_pillow linux_host 440 280 "promo-440x280.png"
           "MyAyAI" "AI Prompt Optimizer" checkout).
  vm_compute. reflexivity.
Defined.

Lemma create_promo_pill_witness :
  ∃ img front x0 y0 x1 y1 px py pill_font l t pw ph,
    final (@create_promo demo_pillow linux_host 440 280 "promo-440x280.png"
             "MyAyAI" "AI Prompt Optimizer" checkout)
      !! ["promo-440x280.png"; "store-assets"; "repo"] = Some (File img) ∧
    im_ops img = front ++ [RoundedRectangle x0 y0 x1 y1 18 (RGB 0 145 255) None 1;
                           Text px py pill_text pill_font (RGB 0 0 0)] ∧
    result (@get_font linux_host (Z.min (440 / 32) 22) checkout) = inr pill_font ∧
    @text_extent demo_pillow pill_font pill_text = (l, t, pw, ph) ∧
    x1 - x0 = pw + 2 * 16 ∧
    440 - 1 ≤ x0 + x1 ≤ 440 ∧
    y0 ≤ y1.
Proof.
  apply (@create_promo_pill demo_pillow linux_host 440 280 "promo-440x280.png"
           "MyAyAI" "AI Prompt Optimizer" checkout).
  vm_compute. reflexivity.
Defined.

Lemma create_promo_layout_witness :
  ∃ title_font subtitle_font pill_font l1 t1 tw th l2 t2 sw sh l3 t3 pw ph y0 y1,
    final (@create_promo demo_pillow linux_host 440 280 "promo-440x280.png"
             "MyAyAI" "AI Prompt Optimizer" checkout)
      !! ["promo-440x280.png"; "store-assets"; "repo"] =
      Some (File (promo_bitmap 440 280 "MyAyAI" "AI Prompt Optimizer"
                    title_font subtitle_font pill_font tw th sw pw ph y0 y1)) ∧
    result (@get_font linux_host (Z.min (440 / 12) 64) checkout) = inr title_font ∧
    result (@get_font linux_host (Z.min (440 / 24) 32) checkout) = inr subtitle_font ∧
    result (@get_font linux_host (Z.min (440 / 32) 22) checkout) = inr pill_font ∧
    @text_extent demo_pillow title_font "MyAyAI" = (l1, t1, tw, th) ∧
    @text_extent demo_pillow subtitle_font "AI Prompt Optimizer" = (l2, t2, sw, sh) ∧
    @text_extent demo_pillow pill_font pill_text = (l3, t3, pw, ph) ∧
    int_of_float (float_of_int 280 * 0.70 - float_of_int ph / 2 - 10)%float = inr y0 ∧
    int_of_float (float_of_int 280 * 0.70 + float_of_int ph / 2 + 10)%float = inr y1.
Proof.
  apply (@create_promo_layout demo_pillow linux_host 440 280 "promo-440x280.png"
           "MyAyAI" "AI Prompt Optimizer" checkout).
  vm_compute. reflexivity.
Defined.

Lemma create_screenshot_layout_witness :
  ∃ title_font subtitle_font foot_font,
    result (@get_font linux_host 52 checkout) = inr title_font ∧
    result (@get_font linux_host 28 checkout) = inr subtitle_font ∧
    result (@get_font linux_host 18 checkout) = inr foot_font ∧
    bitmaps (events (@create_screenshot demo_pillow linux_host 1 "Title" "Subtitle" checkout)) =
      [screenshot_bitmap "Title" "Subtitle" title_font subtitle_font foot_font] ∧
    bitmaps (events (@create_screenshot demo_pillow linux_host 2 "Title" "Subtitle"
                       (final (@ensure_dirs linux_host ∅)))) =
      bitmaps (events (@create_screenshot demo_pillow linux_host 1 "Title" "Subtitle" checkout)).
Proof.
  apply (@create_screenshot_layout demo_pillow linux_host 1 2 "Title" "Subtitle"
           checkout (final (@ensure_dirs linux_host ∅))
           ["screenshot-1.png"; "screenshots"; "store-assets"; "repo"]
           ["screenshot-2.png"; "screenshots"; "store-assets"; "repo"]).
  - vm_compute. reflexivity.
  - vm_compute. reflexivity.
Defined.

Lemma create_screenshot_paths_witness :
  ["screenshot-1.png"; "screenshots"; "store-assets"; "repo"] =
    screenshot_name 1 :: @SCREENSHOTS_DIR linux_host ∧
  (1 ≠ 2 →
   ["screenshot-1.png"; "screenshots"; "store-assets"; "repo"] ≠
   ["screenshot-2.png"; "screenshots"; "store-assets"; "repo"]).
Proof.
  apply (@create_screenshot_paths demo_pillow linux_host 1 2
           "Title" "Subtitle" "Another title" "Another subtitle" checkout checkout).
  - vm_compute. reflexivity.
  - vm_compute. reflexivity.
Defined.

Lemma create_icon_succeeds_witness :
  let r := @create_icon demo_pillow linux_host 16 "icon16.png" checkout in
  let img := icon_bitmap 16
               (Float (float_of_int (16 / 2) - float_of_int 6 / 2)%float)
               (Float (float_of_int (16 / 2) - float_of_int 11 / 2)%float)
               (DefaultFont None) in
  result r = inr ("icon16.png" :: @ASSETS_DIR linux_host) ∧
  final r = <["icon16.png" :: @ASSETS_DIR linux_host := File img]> checkout ∧
  saves (events r) = [("icon16.png" :: @ASSETS_DIR linux_host, img)] ∧
  prints (events r) = [].
Proof.
  apply (@create_icon_succeeds demo_pillow linux_host 16 "icon16.png" checkout
           (DefaultFont None) 0 0 6 11).
  - lia.
  - vm_compute. reflexivity.
  - vm_compute. reflexivity.
  - vm_compute. reflexivity.
  - vm_compute. reflexivity.
  - reflexivity.
  - vm_compute. reflexivity.
  - reflexivity.
  - vm_compute. reflexivity.
  - vm_compute. discriminate.
Defined.


Lemma main_refuses_directory_witness :
  (∃ e, result (@main demo_pillow linux_host
                  {[ ["icon16.png"; "icons"; "assets"; "myayai-extension"; "repo"] := Dir ]})
          = inl e) ∧
  final (@main demo_pillow linux_host
           {[ ["icon16.png"; "icons"; "assets"; "myayai-extension"; "repo"] := Dir ]})
    !! ["icon16.png"; "icons"; "assets"; "myayai-extension"; "repo"] = Some Dir.
Proof.
  apply (@main_refuses_directory demo_pillow linux_host).
  - apply list_elem_of_here.
  - vm_compute. reflexivity.
Defined.

(** ** The file tree stays well formed *)

Lemma is_dir_insert_ne (fs : FS) p q n : p ≠ q → is_dir (<[p := n]> fs) q = is_dir fs q.
Proof. intros Hne. unfold is_dir. by rewrite node_insert_ne. Qed.

Lemma well_formed_mkdir (fs : FS) c parent :
  well_formed fs → fs !! (c :: parent) = None → is_dir fs parent = true →
  well_formed (<[c :: parent := Dir]> fs).
Proof.
  intros Hwf Hnone Hparent c' parent' Hin.
  destruct (decide (c :: parent = c' :: parent')) as [[= <- <-]|Hne].
  - rewrite is_dir_insert_ne by apply cons_neq_self. done.
  - rewrite lookup_insert_ne in Hin by done. pose proof (Hwf _ _ Hin) as Hdir.
    rewrite is_dir_insert_ne; [done|]. intros <-.
    unfold is_dir in Hdir. cbn [node] in Hdir. by rewrite Hnone in Hdir.
Qed.

Lemma well_formed_write (fs : FS) out img :
  well_formed fs → fs !! out ≠ Some Dir → is_dir fs (tail out) = true →
  well_formed (<[out := File img]> fs).
Proof.
  intros Hwf Hout Hparent c parent Hin.
  assert (is_dir fs parent = true) as Hdir.
  { destruct (decide (out = c :: parent)) as [->|Hne]; [done|].
    rewrite lookup_insert_ne in Hin by done. by apply (Hwf c). }
  destruct (decide (out = parent)) as [->|Hne]; [|by rewrite is_dir_insert_ne].
  destruct parent as [|c' parent']; [done|].
  unfold is_dir in Hdir. cbn [node] in Hdir.
  by destruct (fs !! (c' :: parent')) as [[|?]|].
Qed.

Lemma keeps_quiet {A} P (m : M A) : quiet m → keeps P m.
Proof. intros Hm fs HP. by destruct (Hm fs) as (-> & _). Qed.

Lemma keeps_bind {A B} P (m : M A) (k : A → M B) :
  keeps P m → (∀ a, keeps P (k a)) → keeps P (bind m k).
Proof.
  intros Hm Hk fs HP. unfold bind. cbv zeta. specialize (Hm fs HP).
  destruct (result (m fs)) as [e|a]; cbn [final]; [done|]. by apply Hk.
Qed.

Lemma keeps_catch {A} P (m : M A) (h : exn → M A) :
  keeps P m → (∀ e, keeps P (h e)) → keeps P (catch m h).
Proof.
  intros Hm Hh fs HP. unfold catch. cbv zeta. specialize (Hm fs HP).
  destruct (result (m fs)) as [e|a]; cbn [final]; [|done]. by apply Hh.
Qed.

Lemma keeps_writes_one (m : M Path) : writes_one m → keeps well_formed m.
Proof.
  intros Hm fs Hwf. destruct (Hm fs) as (_ & Hone).
  destruct (result (m fs)) as [e|out]; [by destruct Hone as (-> & _)|].
  destruct Hone as (img & _ & -> & Hout & Hparent). by apply well_formed_write.
Qed.

Section Well_formed.

Context `{Pillow} `{Host}.

Lemma keeps_os_mkdir p : keeps well_formed (os_mkdir p).
Proof.
  intros fs Hwf. unfold os_mkdir. destruct p as [|c parent]; [done|].
  destruct (node fs parent) as [[|?]|] eqn:Hparent; [|done..].
  destruct (fs !! (c :: parent)) eqn:Hp; [done|]. cbn [final].
  apply well_formed_mkdir; [done..|]. unfold is_dir. by rewrite Hparent.
Qed.

Lemma keeps_unless_is_dir P p e : keeps P (unless_is_dir p e).
Proof. intros fs HP. unfold unless_is_dir. by destruct (is_dir fs p). Qed.

Lemma keeps_mkdir_exist_ok p : keeps well_formed (mkdir_exist_ok p).
Proof.
  unfold mkdir_exist_ok. apply keeps_catch; [apply keeps_os_mkdir|].
  intros e. destruct e; try apply keeps_unless_is_dir; apply keeps_quiet, quiet_raise.
Qed.

Lemma keeps_mkdir p : keeps well_formed (mkdir p).
Proof.
  induction p as [|c parent IH]; cbn [mkdir].
  - apply keeps_catch; [apply keeps_os_mkdir|].
    intros e. destruct e; try apply keeps_unless_is_dir; apply keeps_quiet, quiet_raise.
  - apply keeps_catch; [apply keeps_os_mkdir|].
    intros e. destruct e; try apply keeps_unless_is_dir.
    apply keeps_bind; [exact IH|]. intros _. apply keeps_mkdir_exist_ok.
Qed.

Lemma keeps_ensure_dirs : keeps well_formed ensure_dirs.
Proof.
  intros fs Hwf. rewrite ensure_dirs_run. revert fs Hwf.
  apply (keeps_bind well_formed (mkdir ASSETS_DIR) (fun _ => mkdir SCREENSHOTS_DIR));
    [apply keeps_mkdir|]. intros _. apply keeps_mkdir.
Qed.

Lemma keeps_wpe {A} (m : M A) :
  (∀ fs, well_formed fs →
     wpe m (fun _ _ _ fs' => well_formed fs') (fun _ _ _ fs' => well_formed fs') fs) →
  keeps well_formed m.
Proof.
  intros Hm fs Hwf. specialize (Hm fs Hwf). unfold wpe in Hm.
  by destruct (result (m fs)).
Qed.

Lemma keeps_create_icon size filename : keeps well_formed (create_icon size filename).
Proof.
  apply keeps_wpe. intros fs Hwf. apply wpe_create_icon; [done|..].
  - intros name parent old img e Hout _ _ _ Hdir Hold _.
    apply well_formed_write; [done|by rewrite Hold|done].
  - intros img Hout Hdir. by apply well_formed_write.
Qed.

Lemma keeps_create_promo width height filename title subtitle :
  keeps well_formed (create_promo width height filename title subtitle).
Proof.
  apply keeps_wpe. intros fs Hwf. apply wpe_create_promo; [done|..].
  - intros name parent old img e Hout _ _ _ _ Hdir Hold _.
    apply well_formed_write; [done|by rewrite Hold|done].
  - intros img Hout Hdir. by apply well_formed_write.
Qed.

Lemma keeps_create_screenshot idx title subtitle :
  keeps well_formed (create_screenshot idx title subtitle).
Proof. apply keeps_writes_one, writes_one_create_screenshot. Qed.

Lemma keeps_main : keeps well_formed main.
Proof.
  unfold main.
  apply keeps_bind; [apply keeps_ensure_dirs|intros _].
  repeat lazymatch goal with
    | |- keeps _ (bind (create_icon ?size ?name) _) =>
        apply keeps_bind; [apply (keeps_create_icon size name)|intros _]
    | |- keeps _ (bind (create_screenshot ?idx ?t ?s) _) =>
        apply keeps_bind; [apply (keeps_create_screenshot idx t s)|intros _]
    | |- keeps _ (bind (create_promo ?w ?h ?name ?t ?s) _) =>
        apply keeps_bind; [apply (keeps_create_promo w h name t s)|intros _]
    end.
  intros fs Hwf. exact Hwf.
Qed.

(** In a well-formed file tree, the directories above a directory are
    directories. *)
Lemma well_formed_above fs p q :
  well_formed fs → is_dir fs p = true → q `suffix_of` p → is_dir fs q = true.
Proof.
  intros Hwf. induction p as [|c parent IH]; intros Hdir Hq.
  - apply suffix_nil_inv in Hq as ->. done.
  - destruct Hq as [[|c' k] Hk]; simplify_eq/=; [done|].
    apply IH; [|by eexists].
    apply (Hwf c'). unfold is_dir in Hdir. cbn [node] in Hdir.
    by destruct (fs !! (c' :: k ++ q)).
Qed.

(** X22: [main] keeps the file tree well formed, whether it returns or
    raises, and so does each of the three generators: every file and
    directory it leaves lies in a directory. *)
Theorem main_keeps_well_formed (fs : FS) :
  well_formed fs →
  well_formed (final (main fs)) ∧
  (∀ size filename, well_formed (final (create_icon size filename fs))) ∧
  (∀ width height filename title subtitle,
     well_formed (final (create_promo width height filename title subtitle fs))) ∧
  (∀ idx title subtitle, well_formed (final (create_screenshot idx title subtitle fs))).
Proof.
  intros Hwf. split_and!; intros.
  - by apply keeps_main.
  - by apply keeps_create_icon.
  - by apply keeps_create_promo.
  - by apply keeps_create_screenshot.
Qed.

(** X23: on a well-formed file tree, a call of [ensure_dirs] that returns
    leaves as directories not only the two directories of its list but
    every directory above them; among these is [STORE_DIR], which is not
    in the list and in which [create_promo] writes. *)
Theorem ensure_dirs_creates_parents (fs : FS) :
  well_formed fs →
  result (ensure_dirs fs) = inr tt →
  is_dir (final (ensure_dirs fs)) STORE_DIR = true ∧
  ∀ q, q `suffix_of` ASSETS_DIR ∨ q `suffix_of` SCREENSHOTS_DIR →
       is_dir (final (ensure_dirs fs)) q = true.
Proof.
  intros Hwf Hr. pose proof (keeps_ensure_dirs fs Hwf) as Hwf'.
  assert (is_dir (final (ensure_dirs fs)) ASSETS_DIR = true ∧
          is_dir (final (ensure_dirs fs)) SCREENSHOTS_DIR = true) as (Hdir1 & Hdir2).
  { revert Hr. apply (wp_result _ (fun _ _ fs' =>
      is_dir fs' ASSETS_DIR = true ∧ is_dir fs' SCREENSHOTS_DIR = true)).
    apply wp_ensure_dirs. done. }
  assert (∀ q, q `suffix_of` ASSETS_DIR ∨ q `suffix_of` SCREENSHOTS_DIR →
               is_dir (final (ensure_dirs fs)) q = true) as Habove.
  { intros q [Hq|Hq].
    - exact (well_formed_above _ ASSETS_DIR q Hwf' Hdir1 Hq).
    - exact (well_formed_above _ SCREENSHOTS_DIR q Hwf' Hdir2 Hq). }
  split; [|done]. apply Habove. right.
  rewrite SCREENSHOTS_DIR_parts, STORE_DIR_parts. by apply suffix_cons_r.
Qed.

End Well_formed.

Lemma main_keeps_well_formed_witness :
  well_formed (final (@main demo_pillow linux_host ∅)) ∧
  (∀ size filename, well_formed (final (@create_icon demo_pillow linux_host size filename ∅))) ∧
  (∀ width height filename title subtitle,
     well_formed
       (final (@create_promo demo_pillow linux_host width height filename title subtitle ∅))) ∧
  (∀ idx title subtitle,
     well_formed (final (@create_screenshot demo_pillow linux_host idx title subtitle ∅))).
Proof.
  apply (@main_keeps_well_formed demo_pillow linux_host ∅).
  intros c parent Hin. rewrite lookup_empty in Hin. done.
Defined.

Lemma ensure_dirs_creates_parents_witness :
  is_dir (final (@ensure_dirs linux_host ∅)) (@STORE_DIR linux_host) = true ∧
  ∀ q, q `suffix_of` @ASSETS_DIR linux_host ∨ q `suffix_of` @SCREENSHOTS_DIR linux_host →
       is_dir (final (@ensure_dirs linux_host ∅)) q = true.
Proof.
  apply (@ensure_dirs_creates_parents linux_host ∅).
  - intros c parent Hin. rewrite lookup_empty in Hin. done.
  - vm_compute. reflexivity.
Defined.

(** ** A promo tile of negative size *)

(** X24: [create_promo] refuses a negative width or height: [Image.new]
    raises [ValueError] before anything is drawn, no font is loaded and
    the file tree is left as it is.  A width or height of 0 is not
    refused here. *)
Theorem create_promo_rejects_negative `{Pillow} `{Host}
    (width height : Z) (filename title subtitle : string) (fs : FS) :
  width < 0 ∨ height < 0 →
  create_promo width height filename title subtitle fs = mkRun [] fs (inl ValueError).
Proof.
  intros Hneg. unfold create_promo.
  rewrite (bind_inl _ _ fs ValueError); unfold Image_new; cbn [fst snd];
    by destruct (Z.ltb_spec width 0), (Z.ltb_spec height 0); try lia.
Qed.

Lemma create_promo_rejects_negative_witness :
  @create_promo demo_pillow linux_host 440 (-280) "promo.png" "MyAyAI" "AI Prompt Optimizer"
    checkout = mkRun [] checkout (inl ValueError).
Proof.
  apply (@create_promo_rejects_negative demo_pillow linux_host 440 (-280) "promo.png"
           "MyAyAI" "AI Prompt Optimizer" checkout).
  right. lia.
Defined.
